(** * RegionFree YouTube Downloader: a shallow embedding of [main.py]

  The development follows the layout of the script:
  - [Py]         the few Python primitives the script relies on
                 (exceptions, results, string helpers);
  - [Util]       [sanitize_filename];
  - [Watchdog]   [download_with_watchdog], the stall-aware transfer;
  - [Versions]   the version selection inside [ensure_tor_files];
  - [Supervisor] [terminate_tor_process], [start_tor_process],
                 [wait_for_tor], [test_tor_connection] over the three
                 module globals and the operating-system state;
  - [Rotation]   [download_video], the loop over the exit countries;
  - [Listing]    the pattern that reads the versions off the index page;
  - [Platform]   the bundle name chosen from the operating system;
  - [Program]    the script as a whole, with its exit hook.

  Everything the script obtains from the outside world (clock readings,
  network answers, process behaviour) is an explicit argument of the
  function that consumes it. Clock readings are binary64 floats, as
  [time.time()] returns them. *)

From Stdlib Require Import Ascii String ZArith Sorted.
From Stdlib Require PrimFloat FloatOps SpecFloat.
From stdpp Require Import gmap strings list fin_maps pretty.

Local Open Scope string_scope.

(* ===================================================================== *)
(** ** Python primitives *)
(* ===================================================================== *)

Module Py.

(** The exception classes that the script raises or lets through. *)
Inductive exn : Type :=
| RuntimeError (msg : string)
| ValueError (msg : string)
| IndexError
| OSError (msg : string)
| HTTPError (msg : string)
| ConnectionError (msg : string)
| DownloadError (msg : string).

(** [str(e)] as used in the f-strings of the script. *)
Definition exn_str (e : exn) : string :=
  match e with
  | RuntimeError m | ValueError m | OSError m
  | HTTPError m | ConnectionError m | DownloadError m => m
  | IndexError => "list index out of range"
  end.

(** Outcome of a call: a normal return or a raised exception. *)
Inductive result (A : Type) : Type :=
| Ok (a : A)
| Raise (e : exn).
Arguments Ok {A} a.
Arguments Raise {A} e.

Definition is_ok {A} (r : result A) : bool :=
  match r with Ok _ => true | Raise _ => false end.

(** Characters are bytes; the script only ever inspects ASCII ones. *)
Definition chars (s : string) : list ascii := list_ascii_of_string s.

Definition dquote : ascii := "034"%char.
Definition newline : ascii := "010"%char.
Definition creturn : ascii := "013"%char.
Definition tab : ascii := "009"%char.

Definition char_in (c : ascii) (cls : list ascii) : bool :=
  existsb (Ascii.eqb c) cls.

(** [re.sub('[cls]', "", s)]: drop every character of the class. *)
Fixpoint re_sub_class_empty (cls : list ascii) (s : string) : string :=
  match s with
  | EmptyString => EmptyString
  | String c rest =>
      if char_in c cls then re_sub_class_empty cls rest
      else String c (re_sub_class_empty cls rest)
  end.

(** [s.replace(a, b)] for one-character [a] and [b]. *)
Fixpoint replace_char (a b : ascii) (s : string) : string :=
  match s with
  | EmptyString => EmptyString
  | String c rest =>
      String (if Ascii.eqb c a then b else c) (replace_char a b rest)
  end.

(** [s.upper()] on ASCII letters; other bytes are left alone. *)
Definition upper_char (c : ascii) : ascii :=
  let n := nat_of_ascii c in
  if (97 <=? n)%nat && (n <=? 122)%nat then ascii_of_nat (n - 32) else c.

Fixpoint upper (s : string) : string :=
  match s with
  | EmptyString => EmptyString
  | String c rest => String (upper_char c) (upper rest)
  end.

(** Truthiness of a [str]. *)
Definition truthy (s : string) : bool :=
  match s with EmptyString => false | String _ _ => true end.

(** [str(n)] for an [int]. *)
Definition str_of_int (n : Z) : string := pretty n.

(** [x - y] on two [float]s: the binary64 subtraction. *)
Definition float_sub (x y : PrimFloat.float) : PrimFloat.float :=
  PrimFloat.sub x y.

(** A [float] against an [int]. Python compares the two values exactly,
    without rounding the integer; NaN compares with nothing. *)
Definition float_cmp_int (x : PrimFloat.float) (n : Z) : option comparison :=
  match FloatOps.Prim2SF x with
  | SpecFloat.S754_nan => None
  | SpecFloat.S754_infinity s => Some (if s then Lt else Gt)
  | SpecFloat.S754_zero _ => Some (0 ?= n)%Z
  | SpecFloat.S754_finite s m e =>
      let v := if s then Z.neg m else Z.pos m in
      Some (if (0 <=? e)%Z then (v * 2 ^ e ?= n)%Z
            else (v ?= n * 2 ^ (- e))%Z)
  end.

(** [x > n] and [x < n] *)
Definition float_gt_int (x : PrimFloat.float) (n : Z) : bool :=
  match float_cmp_int x n with Some Gt => true | _ => false end.

Definition float_lt_int (x : PrimFloat.float) (n : Z) : bool :=
  match float_cmp_int x n with Some Lt => true | _ => false end.


End Py.

(* ===================================================================== *)
(** ** Utility functions *)
(* ===================================================================== *)

Module Util.
Import Py.

(** The character class of the regular expression on line 63:
    backslash, slash, colon, asterisk, question mark, double quote,
    angle brackets, pipe, newline, carriage return, tab. *)
Definition forbidden : list ascii :=
  [ "\"%char; "/"%char; ":"%char; "*"%char; "?"%char; dquote;
    "<"%char; ">"%char; "|"%char; newline; creturn; tab ].

Definition sanitize_filename (name : string) : string :=
  let name := re_sub_class_empty forbidden name in
  replace_char " "%char "_"%char name.

End Util.

(* ===================================================================== *)
(** ** Stall-watchdog transfer: [download_with_watchdog] *)
(* ===================================================================== *)

Module Watchdog.
Import Py.

Abbreviation bytes := (list Byte.byte).

(** One pass through the body of the [for] loop of lines 101-132: the
    chunk handed out by [r.iter_content] and the [time.time()] reading of
    that pass (line 103 for an empty chunk, line 111 otherwise). *)
Record recv : Type := Recv { chunk : bytes; now : PrimFloat.float }.

(** How the iteration ends: the body is exhausted, or the connection
    breaks and the iterator raises. *)
Inductive stream_end : Type :=
| Exhausted
| Broken (e : exn).

(** The streamed response of [requests.get(url, stream=True, ...)]. *)
Record response : Type := Response {
  status_error : option exn;      (* what [r.raise_for_status()] raises *)
  length_error : option exn;      (* what [int(...)] raises on the
                                     content-length header, line 96 *)
  body : list recv;
  ending : stream_end
}.

Inductive get_outcome : Type :=
| GetRaises (e : exn)              (* [requests.get] itself raises *)
| GetResponse (r : response).

(** Local variables of the loop together with the open file [f]. *)
Record loop_state : Type := LoopState {
  f : bytes;                       (* what has been written to [f] *)
  downloaded : Z;
  last_data_time : PrimFloat.float
}.

(** The exception of lines 104-106, as a function of the number that the
    message reports. *)
Definition stall_error (label : string) (seconds : Z) : exn :=
  RuntimeError (label +:+ " stalled for " +:+ str_of_int seconds +:+ " seconds").

Definition is_empty (c : bytes) : bool :=
  match c with [] => true | _ :: _ => false end.

(** Lines 101-111. The progress line printed on lines 113-132 only reads
    the loop variables and is left out. The test of line 103 subtracts
    two floats and compares the difference with the integer [timeout].
    An empty chunk is what the loop itself provides for; the iterator of
    the standard [requests] stack hands out non-empty chunks only and
    reports a silent connection by raising, which is [Broken] here. *)
Fixpoint iter_content (label : string) (timeout : Z) (st : loop_state)
    (items : list recv) (fin : stream_end) : result unit * loop_state :=
  match items with
  | [] =>
      match fin with
      | Exhausted => (Ok tt, st)
      | Broken e => (Raise e, st)
      end
  | it :: rest =>
      if is_empty (chunk it) then
        if float_gt_int (float_sub (now it) (last_data_time st)) timeout
        then (Raise (stall_error label timeout), st)
        else iter_content label timeout st rest fin
      else
        let st' := {| f := f st ++ chunk it;
                      downloaded := (downloaded st + Z.of_nat (length (chunk it)))%Z;
                      last_data_time := now it |} in
        iter_content label timeout st' rest fin
  end.

(** Lines 80-134. [t0] is the clock reading of line 91, [net] the answer
    of the server, [fs] the local files (path to content). Opening with
    mode ["wb"] truncates, so the file starts empty; local file operations
    are taken to succeed. The [url] selects the answer and [chunk_size]
    the cutting of the body, both of which [net] already fixes. *)
Definition download_with_watchdog (url dest_path label : string)
    (timeout chunk_size : Z) (t0 : PrimFloat.float) (net : get_outcome)
    (fs : gmap string bytes) : result unit * gmap string bytes :=
  match net with
  | GetRaises e => (Raise e, fs)
  | GetResponse r =>
      match status_error r with
      | Some e => (Raise e, fs)
      | None =>
          match length_error r with
          | Some e => (Raise e, fs)
          | None =>
              let st0 := {| f := []; downloaded := 0; last_data_time := t0 |} in
              let '(res, st) :=
                iter_content label timeout st0 (body r) (ending r) in
              (res, <[dest_path := f st]> fs)
          end
      end
  end.

Definition default_label : string := "Downloading".
Definition default_timeout : Z := 30.
Definition default_chunk_size : Z := 1024 * 64.

(** The non-empty chunks of a body, in order of arrival. *)
Definition data_chunks (items : list recv) : list bytes :=
  List.filter (fun c => negb (is_empty c)) (map chunk items).

(** Clock reading of the last non-empty chunk among [items], or [t0]
    (the reading at the start of the call) when there is none. *)
Definition last_progress (t0 : PrimFloat.float) (items : list recv)
    : PrimFloat.float :=
  List.last (map now (List.filter (fun it => negb (is_empty (chunk it))) items)) t0.

(** How the call ends when the watchdog does not fire: the way the
    iteration ends. *)
Definition outcome (fin : stream_end) : result unit :=
  match fin with Exhausted => Ok tt | Broken e => Raise e end.

(** For no empty read of [items] does the test of line 103 succeed. *)
Definition in_time (timeout : Z) (t0 : PrimFloat.float) (items : list recv)
    : Prop :=
  forall pre it post,
    items = (pre ++ it :: post)%list -> chunk it = [] ->
    float_gt_int (float_sub (now it) (last_progress t0 pre)) timeout = false.

End Watchdog.

(* ===================================================================== *)
(** ** Version selection inside [ensure_tor_files] (lines 285-289) *)
(* ===================================================================== *)

Module Versions.
Import Py.

(** [s.split(sep)] for a one-character separator: never empty, and an
    empty field appears wherever two separators touch or [s] is empty. *)
Fixpoint split (sep : ascii) (s : string) : list string :=
  match s with
  | EmptyString => [EmptyString]
  | String c rest =>
      if Ascii.eqb c sep then EmptyString :: split sep rest
      else match split sep rest with
           | [] => [String c EmptyString]
           | field :: fields => String c field :: fields
           end
  end.

Definition digit (c : ascii) : option Z :=
  let n := nat_of_ascii c in
  if (48 <=? n)%nat && (n <=? 57)%nat then Some (Z.of_nat (n - 48)) else None.

Fixpoint int_digits (acc : Z) (s : string) : option Z :=
  match s with
  | EmptyString => Some acc
  | String c rest =>
      match digit c with
      | Some d => int_digits (10 * acc + d)%Z rest
      | None => None
      end
  end.

(** The default of [sys.get_int_max_str_digits()]. *)
Definition max_str_digits : nat := 4300.

(** [int(s)] on the strings that reach it here: the pieces of a match of
    [[0-9.]+], that is runs of decimal digits, possibly empty. An empty
    piece raises [ValueError], and so does a run of more digits than the
    interpreter converts. Integers themselves are unbounded. *)
Definition int (s : string) : result Z :=
  match s with
  | EmptyString => Raise (ValueError "invalid literal for int() with base 10: ''")
  | _ =>
      if (max_str_digits <? String.length s)%nat then
        Raise (ValueError
                 ("Exceeds the limit (" +:+ pretty max_str_digits
                  +:+ " digits) for integer string conversion: value has "
                  +:+ pretty (String.length s)
                  +:+ " digits; use sys.set_int_max_str_digits() to increase the limit"))
      else
        match int_digits 0 s with
        | Some n => Ok n
        | None =>
            Raise (ValueError
                     ("invalid literal for int() with base 10: '" +:+ s +:+ "'"))
        end
  end.

(** [list(map(int, fields))]: the first failing conversion raises. *)
Fixpoint map_int (fields : list string) : result (list Z) :=
  match fields with
  | [] => Ok []
  | x :: rest =>
      match int x with
      | Raise e => Raise e
      | Ok n =>
          match map_int rest with
          | Raise e => Raise e
          | Ok ns => Ok (n :: ns)
          end
      end
  end.

(** The sort key [lambda s: list(map(int, s.split(".")))]. *)
Definition key (s : string) : result (list Z) := map_int (split "."%char s).

(** [a < b] on lists of integers: the first differing position decides,
    and a proper prefix is smaller. *)
Fixpoint list_lt (a b : list Z) : bool :=
  match a, b with
  | [], [] => false
  | [], _ :: _ => true
  | _ :: _, [] => false
  | x :: a', y :: b' => if (x =? y)%Z then list_lt a' b' else (x <? y)%Z
  end.

(** [list.sort(key=...)] first computes the key of every element, in
    order, and raises if one of them does. *)
Fixpoint decorate (vs : list string) : result (list (list Z * string)) :=
  match vs with
  | [] => Ok []
  | v :: rest =>
      match key v with
      | Raise e => Raise e
      | Ok k =>
          match decorate rest with
          | Raise e => Raise e
          | Ok ds => Ok ((k, v) :: ds)
          end
      end
  end.

(** The sort is stable and only compares keys with [<]. A stable sort has
    one possible output, so a stable insertion sort stands for it: an
    element goes in front of the first one whose key is not smaller. *)
Fixpoint insort (x : list Z * string) (sorted : list (list Z * string))
    : list (list Z * string) :=
  match sorted with
  | [] => [x]
  | y :: rest =>
      if list_lt (fst y) (fst x) then y :: insort x rest
      else x :: y :: rest
  end.

Fixpoint sort (ds : list (list Z * string)) : list (list Z * string) :=
  match ds with
  | [] => []
  | x :: rest => insort x (sort rest)
  end.

(** [key_le x y]: the key of [y] is not smaller than the key of [x]. *)
Definition key_le (x y : list Z * string) : Prop :=
  list_lt (fst y) (fst x) = false.

(** ["a" not in v] *)
Definition has_no_a (v : string) : bool := negb (char_in "a"%char (chars v)).

(** Lines 285-289: from the matches of the regular expression to
    [latest]. [versions[-1]] raises [IndexError] on an empty list. *)
Definition latest (matches : list string) : result string :=
  let versions := List.filter has_no_a matches in
  match decorate versions with
  | Raise e => Raise e
  | Ok ds =>
      match List.last (map (fun d => Some (snd d)) (sort ds)) None with
      | None => Raise IndexError
      | Some v => Ok v
      end
  end.








End Versions.

(* ===================================================================== *)
(** ** Proxy process supervisor *)
(* ===================================================================== *)

Module Supervisor.
Import Py.

Definition TOR_SOCKS_PORT : Z := 12212.
Definition TOR_CONTROL_PORT : Z := 12213.

Definition pid : Type := nat.

(** What the script does to the outside world, in order. The two [Call]
    events mark the entry into the two supervisor functions. *)
Inductive event : Type :=
| Print (msg : string)
| CallStart (country_code : string)
| CallTerminate
| SigTerm (p : pid)                       (* [tor_process.terminate()] *)
| SigKill (p : pid)                       (* [tor_process.kill()] *)
| Unlink (path : string)                  (* [os.remove] *)
| Spawn (p : pid) (argv : list string)    (* [subprocess.Popen] *)
| Probe                                   (* request to the check service *)
| Fetch (url : string).                   (* [ydl.download([url])] *)

(** The three globals of lines 52-54, and the part of the machine they
    talk about: the proxy processes that are running, the files on disk
    (path to content), and the record of what has been done. *)
Record world : Type := World {
  tor_process : option pid;
  torrc_path : option string;
  tor_started_by_us : bool;
  running : gset pid;
  files : gmap string string;
  log : list event
}.

Definition set_tor_process (v : option pid) (w : world) : world :=
  {| tor_process := v; torrc_path := torrc_path w;
     tor_started_by_us := tor_started_by_us w;
     running := running w; files := files w; log := log w |}.

Definition set_torrc_path (v : option string) (w : world) : world :=
  {| tor_process := tor_process w; torrc_path := v;
     tor_started_by_us := tor_started_by_us w;
     running := running w; files := files w; log := log w |}.

Definition set_tor_started_by_us (v : bool) (w : world) : world :=
  {| tor_process := tor_process w; torrc_path := torrc_path w;
     tor_started_by_us := v;
     running := running w; files := files w; log := log w |}.

Definition set_running (v : gset pid) (w : world) : world :=
  {| tor_process := tor_process w; torrc_path := torrc_path w;
     tor_started_by_us := tor_started_by_us w;
     running := v; files := files w; log := log w |}.

Definition set_files (v : gmap string string) (w : world) : world :=
  {| tor_process := tor_process w; torrc_path := torrc_path w;
     tor_started_by_us := tor_started_by_us w;
     running := running w; files := v; log := log w |}.

Definition emit (e : event) (w : world) : world :=
  {| tor_process := tor_process w; torrc_path := torrc_path w;
     tor_started_by_us := tor_started_by_us w;
     running := running w; files := files w; log := log w ++ [e] |}.

(** The state at import time (lines 52-54), on a machine with the given
    processes and files. *)
Definition initial (procs : gset pid) (fs : gmap string string) : world :=
  {| tor_process := None; torrc_path := None; tor_started_by_us := false;
     running := procs; files := fs; log := [] |}.

(** Statements: they change the world and return or raise. What was done
    before a raise stays done. *)
Definition M (A : Type) : Type := world -> result A * world.

Definition ret {A} (a : A) : M A := fun w => (Ok a, w).
Definition raise {A} (e : exn) : M A := fun w => (Raise e, w).
Definition bind {A B} (m : M A) (k : A -> M B) : M B :=
  fun w =>
    match m w with
    | (Ok a, w') => k a w'
    | (Raise e, w') => (Raise e, w')
    end.
Definition modify (g : world -> world) : M unit := fun w => (Ok tt, g w).
Definition print (msg : string) : M unit := modify (emit (Print msg)).

(** [try: m except Exception as e: h e]; every class of [exn] derives
    from [Exception]. *)
Definition try_except {A} (m : M A) (h : exn -> M A) : M A :=
  fun w =>
    match m w with
    | (Ok a, w') => (Ok a, w')
    | (Raise e, w') => h e w'
    end.

(** A value or exception handed over by the machine. *)
Definition answer {A} (r : result A) : M A := fun w => (r, w).

#[global] Instance M_ret : MRet M := @ret.
#[global] Instance M_bind : MBind M := fun A B k m => bind m k.

(** [os.path.exists(path)]; the empty path never exists. *)
Definition os_path_exists (path : string) (w : world) : bool :=
  truthy path && bool_decide (is_Some (files w !! path)).

(** [tor_process.poll() is None] *)
Definition poll_is_none (p : pid) (w : world) : bool :=
  bool_decide (p ∈ running w).

(** Lines 224-229. [unresponsive] tells whether the process outlives the
    five seconds of [wait], which then raises; either way the process is
    gone afterwards, by itself or by [kill]. *)
Definition stop_running (unresponsive : bool) (w : world) : world :=
  match tor_process w with
  | Some p =>
      if poll_is_none p w && tor_started_by_us w then
        let w1 := emit (SigTerm p) w in
        let w2 := if unresponsive then emit (SigKill p) w1 else w1 in
        set_running (running w2 ∖ {[p]}) w2
      else w
  | None => w
  end.

(** Lines 234-236. *)
Definition remove_torrc (w : world) : world :=
  match torrc_path w with
  | Some path =>
      if truthy path && os_path_exists path w then
        let w1 := emit (Unlink path) (set_files (delete path (files w)) w) in
        set_torrc_path None w1
      else w
  | None => w
  end.

(** Lines 221-236. *)
Definition terminate_tor_process (unresponsive : bool) : M unit :=
  modify (emit CallTerminate) ;;
  modify (stop_running unresponsive) ;;
  modify (set_tor_process None) ;;
  modify (set_tor_started_by_us false) ;;
  modify remove_torrc.

(** The world a call of [terminate_tor_process] leaves behind. *)
Definition terminated (u : bool) (w : world) : world :=
  remove_torrc
    (set_tor_started_by_us false
       (set_tor_process None (stop_running u (emit CallTerminate w)))).

(** Line 340-346, the text written to the configuration file. *)
Definition torrc_content (country_code : string) : string :=
  String newline "GeoIPFile ./data/geoip" +:+
  String newline "GeoIPv6File ./data/geoip6" +:+
  String newline "SocksPort " +:+ str_of_int TOR_SOCKS_PORT +:+
  String newline "ControlPort " +:+ str_of_int TOR_CONTROL_PORT +:+
  String newline "ExitNodes {" +:+ country_code +:+ "}" +:+
  String newline "".

(** What the machine answers while [start_tor_process] runs. *)
Record start_env : Type := StartEnv {
  unresponsive : bool;              (* see [stop_running] *)
  ensure_tor_files : result string; (* outcome of [ensure_tor_files()] *)
  tor_exists : bool;                (* [os.path.exists(tor_path)] *)
  tmp_stem : string;                (* directory, prefix and random part of
                                       the name picked by [NamedTemporaryFile] *)
  popen : result pid                (* [subprocess.Popen]: new process or error *)
}.

(** [f.name] for [NamedTemporaryFile("w", delete=False, suffix=".torrc")]. *)
Definition tmp_name (e : start_env) : string := tmp_stem e +:+ ".torrc".

(** Lines 330-359. *)
Definition start_tor_process (country_code : string) (e : start_env) : M unit :=
  modify (emit (CallStart country_code)) ;;
  terminate_tor_process (unresponsive e) ;;
  tor_path ← answer (ensure_tor_files e);
  (if negb (tor_exists e)
   then raise (RuntimeError ("Tor executable not found at " +:+ tor_path))
   else ret tt) ;;
  modify (fun w => set_files (<[tmp_name e := torrc_content country_code]> (files w)) w) ;;
  modify (set_torrc_path (Some (tmp_name e))) ;;
  p ← answer (popen e);
  modify (fun w => emit (Spawn p [tor_path; "-f"; tmp_name e])
                     (set_running ({[p]} ∪ running w) w)) ;;
  modify (set_tor_process (Some p)) ;;
  modify (set_tor_started_by_us true).

(** Lines 362-368. Each element of [polls] is one evaluation of the loop
    condition: the clock reading, and what [is_tor_proxy_live()] answers
    if it is asked. The clock keeps advancing, so when the list is used up
    the next reading is past the deadline. *)
Fixpoint wait_for_tor_loop (timeout : Z) (start : PrimFloat.float)
    (polls : list (PrimFloat.float * bool)) : bool :=
  match polls with
  | [] => false
  | (t, live) :: rest =>
      if float_lt_int (float_sub t start) timeout then
        if live then true else wait_for_tor_loop timeout start rest
      else false
  end.

Definition wait_for_tor (timeout : Z) (start : PrimFloat.float)
    (polls : list (PrimFloat.float * bool)) : bool :=
  wait_for_tor_loop timeout start polls.

(** What the identity-check service does (lines 215-218). *)
Inductive probe_outcome : Type :=
| ProbeRaises (e : exn)             (* [requests.get] raises *)
| ProbeNotOk                        (* an answer with [r.ok] false *)
| ProbeBadJson (e : exn)            (* [r.json()] raises *)
| ProbeOk (ip is_tor : string).     (* the two fields, as printed *)

(** Lines 210-218. *)
Definition test_tor_connection (o : probe_outcome) : M unit :=
  modify (emit Probe) ;;
  match o with
  | ProbeRaises e => raise e
  | ProbeNotOk => ret tt
  | ProbeBadJson e => raise e
  | ProbeOk ip is_tor => print ("Tor IP: " +:+ ip +:+ " | IsTor: " +:+ is_tor)
  end.

(** Signals sent so far, with their targets. *)
Definition is_signal (e : event) : bool :=
  match e with SigTerm _ | SigKill _ => true | _ => false end.

Definition signals (l : list event) : list event := List.filter is_signal l.

Definition is_unlink (e : event) : bool :=
  match e with Unlink _ => true | _ => false end.

(** Events that [terminate_tor_process] may add after its own entry. *)
Definition cleanup (e : event) : bool := is_signal e || is_unlink e.

(** At most one proxy process runs, and it is the one the globals hold
    and claim as ours. *)
Definition one_session (w : world) : Prop :=
  forall p, p ∈ running w -> tor_process w = Some p /\ tor_started_by_us w = true.

Ltac run :=
  unfold start_tor_process, terminate_tor_process, mbind, M_bind, bind,
    modify, answer, raise, ret, print in *; simpl in *.

End Supervisor.

(* ===================================================================== *)
(** ** Egress rotation: [download_video] *)
(* ===================================================================== *)

Module Rotation.
Import Py Supervisor.

Definition SAFE_COUNTRIES : list string :=
  ["se"; "ch"; "nl"; "is"; "no"; "fi"; "dk"; "de"].

(** What the machine answers during one pass through the loop body. *)
Record attempt : Type := Attempt {
  start_answers : start_env;
  exits_early : bool;          (* the new process ends by itself meanwhile *)
  wait_start : PrimFloat.float;            (* the reading of line 363 *)
  polls : list (PrimFloat.float * bool);   (* see [wait_for_tor_loop] *)
  probe : probe_outcome;
  fetch : option exn           (* what [ydl.download] raises, if anything *)
}.

(** Not a statement of the script: the proxy process may end on its own
    while the script waits for it. *)
Definition process_may_exit (early : bool) : M unit :=
  modify (fun w =>
    match tor_process w with
    | Some p => if early then set_running (running w ∖ {[p]}) w else w
    | None => w
    end).

(** Lines 401-402. The options of lines 379-388 do not depend on the
    country. *)
Definition ydl_download (url : string) (o : option exn) : M unit :=
  modify (emit (Fetch url)) ;;
  match o with
  | None => ret tt
  | Some e => raise e
  end.

Definition readiness_timeout : Z := 40.

(** Lines 391-406, one pass. The result tells whether the function
    returned (line 404) instead of going on to the next country. *)
Definition attempt_country (url country : string) (a : attempt) : M bool :=
  print (String newline "Trying Tor exit node: " +:+ upper country) ;;
  start_tor_process country (start_answers a) ;;
  process_may_exit (exits_early a) ;;
  if negb (wait_for_tor readiness_timeout (wait_start a) (polls a)) then
    (print "Tor failed to start, trying next country" ;; ret false)
  else
    (test_tor_connection (probe a) ;;
     try_except
       (ydl_download url (fetch a) ;;
        print "Download succeeded!" ;;
        ret true)
       (fun e =>
          print ("Failed via " +:+ upper country +:+ ": " +:+ exn_str e) ;;
          ret false)).

(** The [for] loop of line 390; [oracle i] answers during pass [i]. *)
Fixpoint for_countries (url : string) (oracle : nat -> attempt) (i : nat)
    (countries : list string) : M bool :=
  match countries with
  | [] => ret false
  | country :: rest =>
      returned ← attempt_country url country (oracle i);
      if (returned : bool) then ret true
      else for_countries url oracle (S i) rest
  end.

(** Lines 375-408 over a given list of countries. Both ways out, the bare
    [return] of line 404 and the end of the body, give [None]. *)
Definition download_video_over (countries : list string) (url : string)
    (ensure_ffmpeg : result string) (oracle : nat -> attempt) : M unit :=
  ffmpeg_path ← answer ensure_ffmpeg;
  returned ← for_countries url oracle 0 countries;
  if (returned : bool) then ret tt
  else print "All Tor exit nodes failed.".

Definition download_video : string -> result string -> (nat -> attempt) -> M unit :=
  download_video_over SAFE_COUNTRIES.

(** A pass in which the proxy is launched. *)
Definition starts (a : attempt) : Prop :=
  is_ok (ensure_tor_files (start_answers a)) = true /\
  tor_exists (start_answers a) = true /\
  is_ok (popen (start_answers a)) = true.

(** A pass in which the proxy never becomes ready. *)
Definition not_ready (a : attempt) : Prop :=
  wait_for_tor readiness_timeout (wait_start a) (polls a) = false.

Definition ready (a : attempt) : Prop :=
  wait_for_tor readiness_timeout (wait_start a) (polls a) = true.

(** A pass that fails the way the loop expects: the proxy is launched,
    and either it never becomes ready, or the probe returns and the
    fetcher raises. *)
Definition fails (a : attempt) : Prop :=
  starts a /\
  (not_ready a \/
   (ready a /\
    (probe a = ProbeNotOk \/ exists ip t, probe a = ProbeOk ip t) /\
    exists e, fetch a = Some e)).

(** A pass in which the fetch goes through. *)
Definition succeeds (a : attempt) : Prop :=
  starts a /\ ready a /\
  (probe a = ProbeNotOk \/ exists ip t, probe a = ProbeOk ip t) /\
  fetch a = None.

(** The output of line 391. *)
Definition trying (country : string) : event :=
  Print (String newline "Trying Tor exit node: " +:+ upper country).

(** The output of line 403. *)
Definition succeeded : event := Print "Download succeeded!".

Definition is_call (e : event) : bool :=
  match e with CallStart _ | CallTerminate => true | _ => false end.
Definition is_spawn (e : event) : bool :=
  match e with Spawn _ _ => true | _ => false end.
Definition is_fetch (e : event) : bool :=
  match e with Fetch _ => true | _ => false end.

End Rotation.

(* ===================================================================== *)
(** ** The version listing read by [ensure_tor_files] (lines 282-287) *)
(* ===================================================================== *)

Module Listing.
Import Py.

(** The class [[0-9.]]. *)
Definition version_char (c : ascii) : bool :=
  match Versions.digit c with
  | Some _ => true
  | None => Ascii.eqb c "."%char
  end.

(** The two literal parts of the pattern of line 286, before and after
    the group. *)
Definition href_open : string := "href=" +:+ String dquote "".
Definition href_close : string := "/" +:+ String dquote "".

(** [s] without the literal [lit] in front, if it starts with it. *)
Fixpoint strip_prefix (lit s : string) : option string :=
  match lit with
  | EmptyString => Some s
  | String a lit' =>
      match s with
      | EmptyString => None
      | String b s' => if Ascii.eqb a b then strip_prefix lit' s' else None
      end
  end.

(** The longest run of characters of a class at the front of [s], and
    what follows it. *)
Fixpoint span (cls : ascii -> bool) (s : string) : string * string :=
  match s with
  | EmptyString => (EmptyString, EmptyString)
  | String c rest =>
      if cls c then let '(run, tail) := span cls rest in (String c run, tail)
      else (EmptyString, s)
  end.

(** A match of the pattern starting at the front of [s]: the group and
    the length of the whole match. The group is greedy; a shorter group
    is followed by a character of the class, never by the slash, so the
    longest run is the only candidate. *)
Definition match_here (s : string) : option (string * nat) :=
  match strip_prefix href_open s with
  | None => None
  | Some rest =>
      let '(run, tail) := span version_char rest in
      match run with
      | EmptyString => None
      | _ =>
          match strip_prefix href_close tail with
          | None => None
          | Some _ =>
              Some (run, String.length href_open + String.length run
                         + String.length href_close)%nat
          end
      end
  end.

(** [re.findall] scans from left to right; after a match it goes on
    behind it. [skip] counts the characters of the last match that are
    still to be passed. *)
Fixpoint findall_from (skip : nat) (s : string) : list string :=
  match s with
  | EmptyString => []
  | String c rest =>
      match skip with
      | S k => findall_from k rest
      | O =>
          match match_here s with
          | Some (v, len) => v :: findall_from (len - 1) rest
          | None => findall_from 0 rest
          end
      end
  end.

(** [re.findall(r'href="([0-9.]+)/"', html)] *)
Definition findall (html : string) : list string := findall_from 0 html.

(** Lines 285-289 on the text of the index page. *)
Definition latest_of_listing (html : string) : result string :=
  Versions.latest (findall html).

(** A listing with one anchor per version, each between the same two
    pieces of text. *)
Fixpoint render (before after : string) (vs : list string) : string :=
  match vs with
  | [] => EmptyString
  | v :: rest =>
      before +:+ href_open +:+ v +:+ href_close +:+ after
        +:+ render before after rest
  end.

End Listing.

(* ===================================================================== *)
(** ** The bundle name chosen by [ensure_tor_files] (lines 261-279) *)
(* ===================================================================== *)

Module Platform.
Import Py.

(** [s.lower()] on ASCII letters. *)
Definition lower_char (c : ascii) : ascii :=
  let n := nat_of_ascii c in
  if (65 <=? n)%nat && (n <=? 90)%nat then ascii_of_nat (n + 32) else c.

Fixpoint lower (s : string) : string :=
  match s with
  | EmptyString => EmptyString
  | String c rest => String (lower_char c) (lower rest)
  end.

(** [needle in hay] *)
Fixpoint contains (needle hay : string) : bool :=
  String.prefix needle hay ||
  match hay with
  | EmptyString => false
  | String _ rest => contains needle rest
  end.

(** Lines 261-279: from [platform.system()] and [platform.machine()] to
    the pair [(os_handle, arch)]. *)
Definition bundle_platform (system machine : string) : result (string * string) :=
  let sys_os := lower system in
  let sys_arch := lower machine in
  if String.prefix "win" sys_os then
    Ok ("windows", if contains "64" sys_arch then "x86_64" else "i686")
  else if String.eqb sys_os "darwin" then
    Ok ("macos", if contains "arm" sys_arch then "aarch64" else "x86_64")
  else if String.eqb sys_os "linux" then
    Ok ("linux",
        if contains "aarch64" sys_arch || contains "arm64" sys_arch then "aarch64"
        else if contains "arm" sys_arch then "armv7"
        else "x86_64")
  else Raise (RuntimeError ("Unsupported OS: " +:+ sys_os)).

(** The pairs the mapping can give. *)
Definition known_bundles : list (string * string) :=
  [ ("windows", "x86_64"); ("windows", "i686");
    ("macos", "aarch64"); ("macos", "x86_64");
    ("linux", "aarch64"); ("linux", "armv7"); ("linux", "x86_64") ].

End Platform.

(* ===================================================================== *)
(** ** The script as a whole (lines 415-427) *)
(* ===================================================================== *)

Module Program.
Import Py Supervisor Rotation.

(** Lines 415 and 427: [download_video] runs, and when the interpreter
    exits, normally or on an exception that nobody caught, the hook
    registered with [atexit] runs [terminate_tor_process]. The [url] is
    the line typed by the user, already stripped. *)
Definition main (url : string) (ensure_ffmpeg : result string)
    (oracle : nat -> attempt) (unresponsive_at_exit : bool) : M unit :=
  fun w =>
    let '(r, w1) := download_video url ensure_ffmpeg oracle w in
    let '(_, w2) := terminate_tor_process unresponsive_at_exit w1 in
    (r, w2).

(** The exception [start_tor_process] raises with these answers, if any. *)
Definition start_error (e : start_env) : option exn :=
  match ensure_tor_files e with
  | Raise x => Some x
  | Ok tor_path =>
      if negb (tor_exists e)
      then Some (RuntimeError ("Tor executable not found at " +:+ tor_path))
      else match popen e with
           | Raise x => Some x
           | Ok _ => None
           end
  end.

(** What [start_tor_process] records of the launch, with these answers. *)
Definition launch (e : start_env) : list event :=
  match ensure_tor_files e, popen e with
  | Ok tor_path, Ok p => [Spawn p [tor_path; "-f"; tmp_name e]]
  | _, _ => []
  end.

(** The process it launches. *)
Definition launched (e : start_env) : option pid :=
  match popen e with Ok p => Some p | Raise _ => None end.

(** Lines 375-408 over a list of countries, followed by the exit hook. *)
Definition main_over (countries : list string) (url : string)
    (ensure_ffmpeg : result string) (oracle : nat -> attempt)
    (unresponsive_at_exit : bool) : M unit :=
  fun w =>
    let '(r, w1) := download_video_over countries url ensure_ffmpeg oracle w in
    let '(_, w2) := terminate_tor_process unresponsive_at_exit w1 in
    (r, w2).

(** The names of the configuration files written in the first [n]
    passes. *)
Definition torrc_names (oracle : nat -> attempt) (n : nat) : list string :=
  map (fun i => tmp_name (start_answers (oracle i))) (seq 0 n).

(** What [terminate_tor_process] does, after its own entry, to the
    session left by the pass answered by [b]: [terminate()] unless the
    process has ended by itself, [kill()] if it does not react ([u]), and
    the removal of the configuration file. *)
Definition stopping (u : bool) (b : attempt) : list event :=
  match launched (start_answers b) with
  | Some p =>
      (if exits_early b then [] else SigTerm p :: (if u then [SigKill p] else []))
      ++ [Unlink (tmp_name (start_answers b))]
  | None => []
  end.

(** The record of pass [i] of the loop when its proxy is launched and
    does not become ready: lines 391-396, with what the start finds of
    the pass before. *)
Definition not_ready_pass (countries : list string) (oracle : nat -> attempt)
    (i : nat) : list event :=
  let c := nth i countries "" in
  [trying c; CallStart c; CallTerminate]
  ++ match i with
     | O => []
     | S j => stopping (unresponsive (start_answers (oracle i))) (oracle j)
     end
  ++ launch (start_answers (oracle i))
  ++ [Print "Tor failed to start, trying next country"].

(** The globals, the processes and the files after [n] such passes, on
    a machine that had the processes [procs] and the files [fs] when the
    script was loaded. *)
Definition between_passes (procs : gset pid) (fs : gmap string string)
    (countries : list string) (oracle : nat -> attempt) (n : nat)
    (w : world) : Prop :=
  match n with
  | O =>
      tor_process w = None /\ torrc_path w = None /\
      tor_started_by_us w = false /\ running w = procs /\ files w = fs
  | S k =>
      let e := start_answers (oracle k) in
      exists p, launched e = Some p /\
        tor_process w = Some p /\ tor_started_by_us w = true /\
        torrc_path w = Some (tmp_name e) /\
        running w = (if exits_early (oracle k) then procs else procs ∪ {[p]}) /\
        forall path, files w !! path =
          if decide (path = tmp_name e)
          then Some (torrc_content (nth k countries ""))
          else if decide (path ∈ torrc_names oracle k) then None
               else fs !! path
  end.

(** What the script owns of the machine, relative to the processes
    [procs] and the files [fs] it found: a process outside [procs] runs
    only as the one the globals hold and claim, and a file that [fs]
    does not have is the one [torrc_path] names. *)
Definition owns (procs : gset pid) (fs : gmap string string) (w : world) : Prop :=
  (forall p, p ∈ running w ->
     p ∈ procs \/ (tor_process w = Some p /\ tor_started_by_us w = true)) /\
  (forall path c, files w !! path = Some c ->
     (torrc_path w = Some path /\ truthy path = true) \/ fs !! path = Some c).

(** A statement keeps a property of the world if the property holds
    afterwards whenever it held before, whether the statement returns
    or raises. *)
Definition keeps {A} (P : world -> Prop) (m : M A) : Prop :=
  forall w, P w -> P (snd (m w)).

(** The start/terminate entries of a record. *)
Definition calls (l : list event) : list event := List.filter is_call l.
Definition cycle (country : string) : list event :=
  [CallStart country; CallTerminate].
Definition count (keep : event -> bool) (l : list event) : nat :=
  length (List.filter keep l).

End Program.

(* ===================================================================== *)
(** ** Concrete runs used in the examples below *)
(* ===================================================================== *)

Module Samples.
Import Py.
Import PrimFloat.

(** An iterator that hands out one byte and then two empty chunks,
    twenty and forty seconds after the byte. No read lasts as long as
    the read timeout of thirty seconds, so the iterator raises nothing
    by itself. The iterator of the standard [requests] stack hands out
    no empty chunk; this is the input that the test of line 102
    provides for. *)
Definition late_empty_chunk : Watchdog.response :=
  {| Watchdog.status_error := None;
     Watchdog.length_error := None;
     Watchdog.body := [ Watchdog.Recv [Byte.x01] 1%float;
                        Watchdog.Recv [] 21%float;
                        Watchdog.Recv [] 41%float ];
     Watchdog.ending := Watchdog.Exhausted |}.

(** A server that sends one byte and then nothing: the read timeout that
    line 94 hands to [requests] expires, and the iterator raises. *)
Definition silent_after_one_byte : Watchdog.response :=
  {| Watchdog.status_error := None;
     Watchdog.length_error := None;
     Watchdog.body := [ Watchdog.Recv [Byte.x01] 1%float ];
     Watchdog.ending :=
       Watchdog.Broken
         (ConnectionError
            "HTTPSConnectionPool(host='www.gyan.dev', port=443): Read timed out.") |}.

(** Two readings 30 seconds apart as decimal fractions, 0.1 and 30.1:
    their difference as floats is exactly 30. *)
Definition tenth : PrimFloat.float := 0x1.999999999999ap-4%float.
Definition thirty_and_tenth : PrimFloat.float := 0x1.e19999999999ap+4%float.
Definition empty_chunk_on_the_edge : Watchdog.response :=
  {| Watchdog.status_error := None;
     Watchdog.length_error := None;
     Watchdog.body := [ Watchdog.Recv [] thirty_and_tenth ];
     Watchdog.ending := Watchdog.Exhausted |}.


(** A server that sends three bytes, one per second, with an empty read
    in between, and then closes. *)
Definition three_bytes : Watchdog.response :=
  {| Watchdog.status_error := None;
     Watchdog.length_error := None;
     Watchdog.body := [ Watchdog.Recv [Byte.x01] 1%float;
                        Watchdog.Recv [] 1.5%float;
                        Watchdog.Recv [Byte.x02] 2%float;
                        Watchdog.Recv [Byte.x03] 3%float ];
     Watchdog.ending := Watchdog.Exhausted |}.

(** A proxy that was already running when the script came up, with a
    configuration file left over from an earlier session. *)
Definition foreign_proxy : Supervisor.world :=
  {| Supervisor.tor_process := Some 4242;
     Supervisor.torrc_path := Some "/tmp/tmpk3v9x2aa.torrc";
     Supervisor.tor_started_by_us := false;
     Supervisor.running := {[4242]};
     Supervisor.files := {["/tmp/tmpk3v9x2aa.torrc" := Supervisor.torrc_content "se"]};
     Supervisor.log := [] |}.

(** No session, and a [torrc_path] whose file is no longer on disk. *)
Definition stale_reference : Supervisor.world :=
  {| Supervisor.tor_process := None;
     Supervisor.torrc_path := Some "/tmp/tmpk3v9x2aa.torrc";
     Supervisor.tor_started_by_us := false;
     Supervisor.running := ∅;
     Supervisor.files := ∅;
     Supervisor.log := [] |}.

Definition start_se : Supervisor.start_env :=
  {| Supervisor.unresponsive := false;
     Supervisor.ensure_tor_files := Ok "/opt/app/tor/tor";
     Supervisor.tor_exists := true;
     Supervisor.tmp_stem := "/tmp/tmp0a1b2c3d";
     Supervisor.popen := Ok 100 |}.

Definition start_ch : Supervisor.start_env :=
  {| Supervisor.unresponsive := true;
     Supervisor.ensure_tor_files := Ok "/opt/app/tor/tor";
     Supervisor.tor_exists := true;
     Supervisor.tmp_stem := "/tmp/tmp4e5f6g7h";
     Supervisor.popen := Ok 101 |}.

Definition after_se : Supervisor.world :=
  Eval vm_compute in
    snd (Supervisor.start_tor_process "se" start_se (Supervisor.initial ∅ ∅)).

Definition after_ch : Supervisor.world :=
  Eval vm_compute in snd (Supervisor.start_tor_process "ch" start_ch after_se).

(** During pass [i] the proxy is launched and never answers before the
    deadline: the only reading in time finds the port closed. *)
Definition never_ready (i : nat) : Rotation.attempt :=
  {| Rotation.start_answers :=
       {| Supervisor.unresponsive := false;
          Supervisor.ensure_tor_files := Ok "/opt/app/tor/tor";
          Supervisor.tor_exists := true;
          Supervisor.tmp_stem := "/tmp/tmp" +:+ pretty i;
          Supervisor.popen := Ok (100 + i)%nat |};
     Rotation.exits_early := false;
     Rotation.wait_start := 0%float;
     Rotation.polls := [ (1%float, false); (41%float, true) ];
     Rotation.probe := Supervisor.ProbeNotOk;
     Rotation.fetch := None |}.

(** During pass [i] the proxy comes up within two seconds, the check
    service answers, and the fetcher raises. *)
Definition fetch_fails (i : nat) : Rotation.attempt :=
  {| Rotation.start_answers := Rotation.start_answers (never_ready i);
     Rotation.exits_early := false;
     Rotation.wait_start := 0%float;
     Rotation.polls := [ (1%float, false); (2%float, true) ];
     Rotation.probe := Supervisor.ProbeOk "185.220.101.4" "True";
     Rotation.fetch := Some (DownloadError "ERROR: Video unavailable") |}.

(** As [fetch_fails], except that the fetcher returns in pass 2. *)
Definition third_succeeds (i : nat) : Rotation.attempt :=
  {| Rotation.start_answers := Rotation.start_answers (never_ready i);
     Rotation.exits_early := false;
     Rotation.wait_start := 0%float;
     Rotation.polls := [ (1%float, false); (2%float, true) ];
     Rotation.probe := Supervisor.ProbeOk "185.220.101.4" "True";
     Rotation.fetch :=
       if (i =? 2)%nat then None
       else Some (DownloadError "ERROR: Video unavailable") |}.

(** The proxy comes up, and the request to the check service times out. *)
Definition probe_times_out (i : nat) : Rotation.attempt :=
  {| Rotation.start_answers := Rotation.start_answers (never_ready i);
     Rotation.exits_early := false;
     Rotation.wait_start := 0%float;
     Rotation.polls := [ (1%float, false); (2%float, true) ];
     Rotation.probe := Supervisor.ProbeRaises (ConnectionError "Read timed out.");
     Rotation.fetch := None |}.

Definition some_url : string := "https://video.example/watch?v=abc".
Definition ffmpeg_exe : string := "/opt/app/ffmpeg-latest/bin/ffmpeg.exe".

End Samples.

(* ===================================================================== *)
(** ** More concrete inputs *)
(* ===================================================================== *)

Module MoreSamples.
Import Py.
Import PrimFloat.

(** The tor binary is missing in pass 1; pass 0 fails at the fetcher. *)
Definition tor_missing_in_second (i : nat) : Rotation.attempt :=
  {| Rotation.start_answers :=
       {| Supervisor.unresponsive := false;
          Supervisor.ensure_tor_files :=
            if (i =? 1)%nat then Raise (RuntimeError "Could not locate Tor Expert Bundle")
            else Ok "/opt/app/tor/tor";
          Supervisor.tor_exists := true;
          Supervisor.tmp_stem := "/tmp/tmp" +:+ pretty i;
          Supervisor.popen := Ok (100 + i)%nat |};
     Rotation.exits_early := false;
     Rotation.wait_start := 0%float;
     Rotation.polls := [ (1%float, false); (2%float, true) ];
     Rotation.probe := Supervisor.ProbeOk "185.220.101.4" "True";
     Rotation.fetch := Some (DownloadError "ERROR: Video unavailable") |}.

(** A start whose launch fails. *)
Definition start_no_exec : Supervisor.start_env :=
  {| Supervisor.unresponsive := false;
     Supervisor.ensure_tor_files := Ok "/opt/app/tor/tor";
     Supervisor.tor_exists := true;
     Supervisor.tmp_stem := "/tmp/tmp9z8y7x6w";
     Supervisor.popen := Raise (OSError "[Errno 8] Exec format error") |}.

(** A machine on which another proxy runs and an unrelated file lies in
    the temporary directory. *)
Definition busy_machine : Supervisor.world :=
  Supervisor.initial {[4242]} {["/tmp/notes.txt" := "keep"]}.

(** A body whose stream breaks after two chunks. *)
Definition breaks_after_two : Watchdog.response :=
  {| Watchdog.status_error := None;
     Watchdog.length_error := None;
     Watchdog.body := [ Watchdog.Recv [Byte.x01] 1%float;
                        Watchdog.Recv [] 2%float;
                        Watchdog.Recv [Byte.x02] 3%float ];
     Watchdog.ending := Watchdog.Broken (ConnectionError "Connection broken") |}.

End MoreSamples.

(* ===================================================================== *)
(** ** Facts about [sanitize_filename] *)
(* ===================================================================== *)

Module UtilFacts.
Import Py Util.

Lemma char_in_spec (c : ascii) (cls : list ascii) :
  char_in c cls = true <-> In c cls.
Proof.
  unfold char_in. rewrite existsb_exists. split.
  - intros (x & Hx & Heq). apply Ascii.eqb_eq in Heq. now subst.
  - intros Hin. exists c. split; [assumption | apply Ascii.eqb_refl].
Qed.

Lemma re_sub_class_empty_chars (cls : list ascii) (s : string) (c : ascii) :
  In c (chars (re_sub_class_empty cls s)) ->
  In c (chars s) /\ char_in c cls = false.
Proof.
  induction s as [|a s IH]; simpl; [tauto|].
  destruct (char_in a cls) eqn:Ha; simpl.
  - intros H. destruct (IH H). tauto.
  - intros [<- | H]; [tauto|]. destruct (IH H). tauto.
Qed.

Lemma re_sub_class_empty_fixed (cls : list ascii) (s : string) :
  (forall c, In c (chars s) -> char_in c cls = false) ->
  re_sub_class_empty cls s = s.
Proof.
  induction s as [|a s IH]; simpl; intros H; [reflexivity|].
  rewrite (H a) by tauto. f_equal. apply IH. intros c Hc. apply H. tauto.
Qed.

Lemma replace_char_chars (a b : ascii) (s : string) (c : ascii) :
  In c (chars (replace_char a b s)) ->
  c = b \/ (In c (chars s) /\ c <> a).
Proof.
  induction s as [|x s IH]; simpl; [tauto|].
  intros [H | H].
  - destruct (Ascii.eqb x a) eqn:E.
    + left. congruence.
    + right. apply Ascii.eqb_neq in E. split; [tauto | congruence].
  - destruct (IH H) as [-> | [? ?]]; tauto.
Qed.

Lemma replace_char_fixed (a b : ascii) (s : string) :
  ~ In a (chars s) -> replace_char a b s = s.
Proof.
  induction s as [|x s IH]; simpl; intros H; [reflexivity|].
  destruct (Ascii.eqb x a) eqn:E.
  - apply Ascii.eqb_eq in E. tauto.
  - f_equal. apply IH. tauto.
Qed.

(** A character of the output is an underscore or an input character
    that is neither forbidden nor a space. *)
Lemma sanitize_filename_chars (name : string) (c : ascii) :
  In c (chars (sanitize_filename name)) ->
  char_in c forbidden = false /\ c <> " "%char.
Proof.
  unfold sanitize_filename. intros H.
  apply replace_char_chars in H. destruct H as [-> | [H Hsp]].
  - split; [reflexivity | discriminate].
  - apply re_sub_class_empty_chars in H. tauto.
Qed.

Example sanitize_filename_title :
  sanitize_filename
    ("My Video: " +:+ String dquote "Title" +:+ String dquote "?.mp4")
  = "My_Video_Title.mp4".
Proof. reflexivity. Qed.

(** C10. The output of [sanitize_filename] holds none of the twelve
    characters of the class of line 63 and no space, and sanitizing an
    already sanitized name changes nothing. *)
Theorem sanitize_filename_clean_idempotent (name : string) :
  (forall c, In c forbidden \/ c = " "%char ->
             ~ In c (chars (sanitize_filename name))) /\
  sanitize_filename (sanitize_filename name) = sanitize_filename name.
Proof.
  split.
  - intros c Hc Hin. apply sanitize_filename_chars in Hin.
    destruct Hin as [Hf Hsp]. destruct Hc as [Hc | Hc]; [|tauto].
    apply char_in_spec in Hc. congruence.
  - unfold sanitize_filename at 1.
    rewrite re_sub_class_empty_fixed.
    + apply replace_char_fixed. intros H.
      apply sanitize_filename_chars in H. tauto.
    + intros c H. apply sanitize_filename_chars in H. tauto.
Qed.

End UtilFacts.

(* ===================================================================== *)
(** ** Facts about [download_with_watchdog] *)
(* ===================================================================== *)

Module WatchdogFacts.
Import Py Watchdog.
Import PrimFloat.

Lemma last_cons_default {A} (x d : A) (l : list A) :
  List.last (x :: l) d = List.last l x.
Proof.
  revert x d. induction l as [|y l IH]; intros x d; [reflexivity|].
  change (List.last (x :: y :: l) d) with (List.last (y :: l) d).
  now rewrite !IH.
Qed.

Lemma last_progress_empty (t0 : PrimFloat.float) (it : recv) (items : list recv) :
  is_empty (chunk it) = true ->
  last_progress t0 (it :: items) = last_progress t0 items.
Proof. unfold last_progress. simpl. now intros ->. Qed.

Lemma last_progress_data (t0 : PrimFloat.float) (it : recv) (items : list recv) :
  is_empty (chunk it) = false ->
  last_progress t0 (it :: items) = last_progress (now it) items.
Proof.
  unfold last_progress. simpl. intros ->. simpl. apply last_cons_default.
Qed.

(** The loop raises at the first empty chunk for which the test of line
    103 succeeds, whatever follows it. *)
Lemma iter_content_stall (label : string) (timeout : Z) (fin : stream_end)
    (it : recv) (post pre : list recv) (st : loop_state) :
  is_empty (chunk it) = true ->
  float_gt_int (float_sub (now it) (last_progress (last_data_time st) pre))
    timeout = true ->
  fst (iter_content label timeout st (pre ++ it :: post)%list fin)
  = Raise (stall_error label timeout).
Proof.
  intros Hempty. revert st.
  induction pre as [|x pre IH]; intros st Hlate; simpl.
  - rewrite Hempty. unfold last_progress in Hlate. simpl in Hlate.
    now rewrite Hlate.
  - destruct (is_empty (chunk x)) eqn:Ex.
    + destruct (float_gt_int (float_sub (now x) (last_data_time st)) timeout);
        [reflexivity|].
      apply IH. now rewrite last_progress_empty in Hlate.
    + apply IH. simpl. now rewrite last_progress_data in Hlate.
Qed.

(** With non-empty chunks only, the test of line 103 is never made: the
    loop ends the way the iterator ends. *)
Lemma iter_content_data_only (label : string) (timeout : Z) (fin : stream_end)
    (items : list recv) (st : loop_state) :
  Forall (fun it => chunk it <> []) items ->
  fst (iter_content label timeout st items fin)
  = match fin with Exhausted => Ok tt | Broken e => Raise e end.
Proof.
  intros Hall. revert st.
  induction Hall as [|x items Hx _ IH]; intros st; simpl.
  - now destruct fin.
  - destruct (chunk x) as [|b c] eqn:Ex; [congruence|]. simpl. apply IH.
Qed.

(** A loop that ends normally has appended the non-empty chunks, in the
    order of arrival, to what the file held before. *)
Lemma iter_content_ok (label : string) (timeout : Z) (fin : stream_end)
    (items : list recv) (st st' : loop_state) :
  iter_content label timeout st items fin = (Ok tt, st') ->
  f st' = (f st ++ concat (data_chunks items))%list.
Proof.
  revert st. induction items as [|x items IH]; intros st; simpl.
  - destruct fin; intros [= <-]. now rewrite app_nil_r.
  - unfold data_chunks. simpl. destruct (is_empty (chunk x)) eqn:Ex; simpl.
    + destruct (float_gt_int _ _); [discriminate|]. apply IH.
    + intros H. apply IH in H. simpl in H. rewrite H.
      now rewrite <- app_assoc.
Qed.

(** C9. When the transfer returns normally, the destination file holds
    exactly the non-empty chunks received, concatenated in the order of
    arrival, whatever it held before; no other file is touched. *)
Theorem download_with_watchdog_writes_concatenation
    (url dest_path label : string) (timeout chunk_size : Z) (t0 : PrimFloat.float)
    (net : get_outcome) (fs fs' : gmap string bytes) :
  download_with_watchdog url dest_path label timeout chunk_size t0 net fs
  = (Ok tt, fs') ->
  exists r, net = GetResponse r /\
    fs' !! dest_path = Some (concat (data_chunks (body r))) /\
    forall path, path <> dest_path -> fs' !! path = fs !! path.
Proof.
  unfold download_with_watchdog. destruct net as [e | r]; [discriminate|].
  destruct (status_error r); [discriminate|].
  destruct (length_error r); [discriminate|].
  destruct (iter_content _ _ _ _ _) as [res st] eqn:Hloop.
  intros [= -> <-]. exists r. split; [reflexivity|].
  apply iter_content_ok in Hloop. simpl in Hloop. split.
  - rewrite lookup_insert_eq. now rewrite Hloop.
  - intros path Hne. now rewrite lookup_insert_ne.
Qed.

Lemma download_with_watchdog_writes_concatenation_witness :
  exists r, GetResponse Samples.three_bytes = GetResponse r /\
    (<["/tmp/out" := [Byte.x01; Byte.x02; Byte.x03]]> (∅ : gmap string bytes))
      !! "/tmp/out" = Some (concat (data_chunks (body r))) /\
    forall path, path <> "/tmp/out" ->
      (<["/tmp/out" := [Byte.x01; Byte.x02; Byte.x03]]> (∅ : gmap string bytes))
        !! path = (∅ : gmap string bytes) !! path.
Proof.
  apply (download_with_watchdog_writes_concatenation
           "http://host/file" "/tmp/out" "file" 30 65536 0%float
           (GetResponse Samples.three_bytes) ∅).
  reflexivity.
Defined.

(** The test of line 103 is made on floats: with readings 0.1 and 30.1
    the difference is exactly 30, which is not more than a timeout of
    30, and the call returns. *)
Example empty_chunk_exactly_at_timeout :
  float_sub Samples.thirty_and_tenth Samples.tenth = 30%float /\
  fst (download_with_watchdog "http://host/file" "/tmp/out" "x" 30 65536
         Samples.tenth (GetResponse Samples.empty_chunk_on_the_edge) ∅)
  = Ok tt.
Proof. split; reflexivity. Qed.

(** C3, as the code has it. Once the response has a good status and a
    readable length: an empty chunk for which the test of line 103
    succeeds (the clock reading of that pass minus the reading at the
    last non-empty chunk, or at the start of the call if there was none,
    subtracted as floats, is more than [timeout]) makes the call raise
    the stall error, whatever the connection would still deliver, and
    the error reports the label and the configured [timeout]; and when
    the iterator hands out non-empty chunks only and then raises, as it
    does on a connection that stays silent, the call raises what the
    iterator raised. *)
Theorem download_with_watchdog_stalls
    (url dest_path label : string) (timeout chunk_size : Z) (t0 : PrimFloat.float)
    (r : response) (fs : gmap string bytes) :
  status_error r = None ->
  length_error r = None ->
  (forall pre it post,
     body r = (pre ++ it :: post)%list ->
     chunk it = [] ->
     float_gt_int (float_sub (now it) (last_progress t0 pre)) timeout = true ->
     fst (download_with_watchdog url dest_path label timeout chunk_size t0
            (GetResponse r) fs)
     = Raise (stall_error label timeout)) /\
  (forall e,
     Forall (fun it => chunk it <> []) (body r) ->
     ending r = Broken e ->
     fst (download_with_watchdog url dest_path label timeout chunk_size t0
            (GetResponse r) fs)
     = Raise e).
Proof.
  intros Hstatus Hlength. unfold download_with_watchdog.
  rewrite Hstatus, Hlength. split.
  - intros pre it post Hbody Hchunk Hlate. rewrite Hbody.
    pose proof (iter_content_stall label timeout (ending r) it post pre
                  {| f := []; downloaded := 0; last_data_time := t0 |}) as H.
    destruct (iter_content _ _ _ _ _) as [res st]. simpl in *.
    apply H; [now rewrite Hchunk | exact Hlate].
  - intros e Hdata Hend.
    pose proof (iter_content_data_only label timeout (ending r) (body r)
                  {| f := []; downloaded := 0; last_data_time := t0 |} Hdata) as H.
    destruct (iter_content _ _ _ _ _) as [res st]. simpl in *.
    now rewrite H, Hend.
Qed.

Lemma download_with_watchdog_stalls_witness :
  fst (download_with_watchdog "http://host/file" "/tmp/out" "ffmpeg" 30 65536
         0%float (GetResponse Samples.late_empty_chunk) ∅)
  = Raise (stall_error "ffmpeg" 30) /\
  fst (download_with_watchdog "http://host/file" "/tmp/out" "ffmpeg" 30 65536
         0%float (GetResponse Samples.silent_after_one_byte) ∅)
  = Raise (ConnectionError
             "HTTPSConnectionPool(host='www.gyan.dev', port=443): Read timed out.").
Proof.
  split.
  - apply (proj1 (download_with_watchdog_stalls "http://host/file" "/tmp/out"
                    "ffmpeg" 30 65536 0%float Samples.late_empty_chunk ∅
                    eq_refl eq_refl)
             [Recv [Byte.x01] 1%float;
              Recv [] 21%float]
             (Recv [] 41%float) []).
    + reflexivity.
    + reflexivity.
    + reflexivity.
  - apply (proj2 (download_with_watchdog_stalls "http://host/file" "/tmp/out"
                    "ffmpeg" 30 65536 0%float Samples.silent_after_one_byte ∅
                    eq_refl eq_refl)).
    + repeat constructor. discriminate.
    + reflexivity.
Defined.

(** C3 as worded fails, in two ways. When the watchdog fires, here on
    an empty chunk 40 seconds after the only byte with a timeout of 30,
    the error reports the 30 seconds of the timeout and not the 40 that
    have elapsed. And when a server sends one byte and then nothing, no
    empty chunk reaches the loop: the call ends with the read-timeout
    error that the iterator raises, which is no stall error at all. *)
Lemma stall_error_does_not_carry_elapsed :
  let fired :=
    fst (download_with_watchdog "http://host/file" "/tmp/out" "ffmpeg" 30 65536
           0%float (GetResponse Samples.late_empty_chunk) ∅) in
  let silent :=
    fst (download_with_watchdog "http://host/file" "/tmp/out" "ffmpeg" 30 65536
           0%float (GetResponse Samples.silent_after_one_byte) ∅) in
  float_sub 41%float 1%float = 40%float /\
  float_gt_int 40%float 30 = true /\
  fired = Raise (stall_error "ffmpeg" 30) /\
  fired <> Raise (stall_error "ffmpeg" 40) /\
  silent = Raise (ConnectionError
                    "HTTPSConnectionPool(host='www.gyan.dev', port=443): Read timed out.") /\
  forall seconds, silent <> Raise (stall_error "ffmpeg" seconds).
Proof.
  cbv zeta. split; [reflexivity|]. split; [reflexivity|].
  split; [reflexivity|]. split; [vm_compute; discriminate|].
  split; [reflexivity|]. intros seconds H. vm_compute in H. discriminate H.
Qed.

End WatchdogFacts.

(* ===================================================================== *)
(** ** Facts about the version selection *)
(* ===================================================================== *)

Module VersionsFacts.
Import Py Versions.

(** *** The order on keys *)


Lemma list_lt_irrefl (a : list Z) : list_lt a a = false.
Proof.
  induction a as [|x a IH]; simpl; [reflexivity|].
  now rewrite Z.eqb_refl.
Qed.

Lemma list_lt_trans (a b c : list Z) :
  list_lt a b = true -> list_lt b c = true -> list_lt a c = true.
Proof.
  revert b c. induction a as [|x a IH]; intros [|y b] [|z c]; simpl;
    try congruence.
  destruct (Z.eqb_spec x y), (Z.eqb_spec y z), (Z.eqb_spec x z);
    rewrite ?Z.ltb_lt; try lia; try congruence.
  apply IH.
Qed.

Lemma list_lt_connex (a b : list Z) :
  list_lt a b = false -> list_lt b a = false -> a = b.
Proof.
  revert b. induction a as [|x a IH]; intros [|y b]; simpl;
    try congruence.
  destruct (Z.eqb_spec x y), (Z.eqb_spec y x); rewrite ?Z.ltb_ge; try lia.
  intros Hab Hba. subst. f_equal. now apply IH.
Qed.


Lemma key_lt_le (x y : list Z * string) : list_lt (fst x) (fst y) = true -> key_le x y.
Proof.
  unfold key_le. intros H. destruct (list_lt (fst y) (fst x)) eqn:E; [|reflexivity].
  pose proof (list_lt_trans _ _ _ H E) as Hxx.
  now rewrite list_lt_irrefl in Hxx.
Qed.

Lemma key_le_trans (x y z : list Z * string) : key_le x y -> key_le y z -> key_le x z.
Proof.
  unfold key_le. intros Hxy Hyz.
  destruct (list_lt (fst z) (fst x)) eqn:Hzx; [|reflexivity].
  destruct (list_lt (fst x) (fst y)) eqn:Hlt.
  - pose proof (list_lt_trans _ _ _ Hzx Hlt). congruence.
  - rewrite <- (list_lt_connex _ _ Hlt Hxy) in Hyz. congruence.
Qed.

(** *** The sort *)

Lemma insort_In (x y : list Z * string) (l : list (list Z * string)) :
  In y (insort x l) <-> y = x \/ In y l.
Proof.
  induction l as [|z l IH]; simpl; [intuition|].
  destruct (list_lt (fst z) (fst x)); simpl; rewrite ?IH; intuition.
Qed.

Lemma sort_In (y : list Z * string) (l : list (list Z * string)) :
  In y (sort l) <-> In y l.
Proof.
  induction l as [|x l IH]; simpl; [tauto|].
  rewrite insort_In, IH. intuition.
Qed.

Lemma insort_sorted (x : list Z * string) (l : list (list Z * string)) :
  StronglySorted key_le l -> StronglySorted key_le (insort x l).
Proof.
  induction 1 as [|z l Hs IH Hall]; simpl; [repeat constructor|].
  destruct (list_lt (fst z) (fst x)) eqn:Hzx.
  - constructor; [assumption|].
    apply List.Forall_forall. intros y Hy. apply insort_In in Hy as [-> | Hy].
    + now apply key_lt_le.
    + rewrite List.Forall_forall in Hall. now apply Hall.
  - constructor; [now constructor|].
    constructor; [exact Hzx|].
    rewrite List.Forall_forall in *. intros y Hy.
    apply key_le_trans with z; [exact Hzx | now apply Hall].
Qed.

Lemma sort_sorted (l : list (list Z * string)) : StronglySorted key_le (sort l).
Proof.
  induction l as [|x l IH]; simpl; [constructor | now apply insort_sorted].
Qed.

Lemma last_In {A} (l : list A) (d : A) : l <> [] -> In (List.last l d) l.
Proof.
  induction l as [|x l IH]; [congruence|]. intros _.
  destruct l as [|y l]; [now left|].
  right. apply IH. discriminate.
Qed.


Lemma last_map_some {A B} (g : A -> B) (l : list A) (d : A) :
  l <> [] -> List.last (map (fun a => Some (g a)) l) None = Some (g (List.last l d)).
Proof.
  induction l as [|x l IH]; [congruence|]. intros _.
  destruct l as [|y l]; [reflexivity|].
  change (List.last (map (fun a => Some (g a)) (x :: y :: l)) None)
    with (List.last (map (fun a => Some (g a)) (y :: l)) None).
  rewrite IH by discriminate. reflexivity.
Qed.

(** *** Keys of dotted-numeric strings *)

















Lemma filter_all {A} (p : A -> bool) (l : list A) :
  Forall (fun x => p x = true) l -> List.filter p l = l.
Proof.
  induction 1 as [|x l Hx _ IH]; simpl; [reflexivity|]. now rewrite Hx, IH.
Qed.







End VersionsFacts.

(* ===================================================================== *)
(** ** Facts about the supervisor *)
(* ===================================================================== *)

Module SupervisorFacts.
Import Py Supervisor.

Lemma terminate_tor_process_eq (u : bool) (w : world) :
  terminate_tor_process u w = (Ok tt, terminated u w).
Proof. reflexivity. Qed.

Lemma truthy_tmp_name (e : start_env) : truthy (tmp_name e) = true.
Proof. unfold tmp_name. now destruct (tmp_stem e). Qed.

(** What a successful start amounts to. *)
Lemma start_tor_process_ok (c : string) (e : start_env) (w w' : world) :
  start_tor_process c e w = (Ok tt, w') ->
  exists tor_path p,
    ensure_tor_files e = Ok tor_path /\ tor_exists e = true /\ popen e = Ok p /\
    let w1 := terminated (unresponsive e) (emit (CallStart c) w) in
    tor_process w' = Some p /\
    torrc_path w' = Some (tmp_name e) /\
    tor_started_by_us w' = true /\
    running w' = {[p]} ∪ running w1 /\
    files w' = <[tmp_name e := torrc_content c]> (files w1) /\
    log w' = (log w1 ++ [Spawn p [tor_path; "-f"; tmp_name e]])%list.
Proof.
  run. destruct (ensure_tor_files e) as [tor_path|]; [|discriminate].
  destruct (tor_exists e); simpl; [|discriminate].
  destruct (popen e) as [p|]; [|discriminate].
  intros [= <-]. exists tor_path, p. simpl. repeat split.
Qed.

(** Fields after [terminated]. *)
Lemma terminated_tor_process (u : bool) (w : world) :
  tor_process (terminated u w) = None.
Proof.
  unfold terminated, remove_torrc. simpl.
  destruct (torrc_path _); [|reflexivity]. now destruct (_ && _).
Qed.

Lemma terminated_started (u : bool) (w : world) :
  tor_started_by_us (terminated u w) = false.
Proof.
  unfold terminated, remove_torrc. simpl.
  destruct (torrc_path _); [|reflexivity]. now destruct (_ && _).
Qed.

Lemma stop_running_fields (u : bool) (w : world) :
  tor_process (stop_running u w) = tor_process w /\
  torrc_path (stop_running u w) = torrc_path w /\
  tor_started_by_us (stop_running u w) = tor_started_by_us w /\
  files (stop_running u w) = files w.
Proof.
  unfold stop_running. destruct (tor_process w) as [p|] eqn:E; [|easy].
  destruct (_ && _); [|easy]. now destruct u.
Qed.

Lemma remove_torrc_fields (w : world) :
  tor_process (remove_torrc w) = tor_process w /\
  tor_started_by_us (remove_torrc w) = tor_started_by_us w /\
  running (remove_torrc w) = running w.
Proof.
  unfold remove_torrc. destruct (torrc_path w); [|easy].
  now destruct (_ && _).
Qed.

Lemma terminated_running (u : bool) (w : world) :
  running (terminated u w) = running (stop_running u (emit CallTerminate w)).
Proof.
  unfold terminated.
  now rewrite (proj2 (proj2 (remove_torrc_fields _))).
Qed.

(** Nothing is signalled and nothing stops when the flag is off. *)
Lemma stop_running_not_ours (u : bool) (w : world) :
  tor_started_by_us w = false -> stop_running u w = w.
Proof.
  unfold stop_running. intros H. destruct (tor_process w); [|reflexivity].
  now rewrite H, andb_false_r.
Qed.

Lemma stop_running_one_session (u : bool) (w : world) :
  one_session w -> running (stop_running u w) = ∅.
Proof.
  unfold one_session, stop_running. intros H.
  destruct (tor_process w) as [p|] eqn:Hp.
  - unfold poll_is_none. destruct (bool_decide_reflect (p ∈ running w)) as [Hin | Hout].
    + rewrite (proj2 (H p Hin)). simpl.
      assert (running w ∖ {[p]} = ∅) as Hempty.
      { apply set_eq. intros q. split; [|set_solver].
        intros [Hq Hne]%elem_of_difference. destruct (H q Hq) as [Hq' _].
        set_solver. }
      now destruct u.
    + simpl. apply set_eq. intros q. split; [|set_solver].
      intros Hq. destruct (H q Hq) as [Hq' _]. congruence.
  - apply set_eq. intros q. split; [|set_solver].
    intros Hq. destruct (H q Hq) as [Hq' _]. congruence.
Qed.

Lemma signals_app (l1 l2 : list event) :
  signals (l1 ++ l2) = (signals l1 ++ signals l2)%list.
Proof. apply List.filter_app. Qed.

Lemma remove_torrc_signals (w : world) :
  signals (log (remove_torrc w)) = signals (log w).
Proof.
  unfold remove_torrc. destruct (torrc_path w); [|reflexivity].
  destruct (_ && _); [|reflexivity]. simpl.
  rewrite signals_app. simpl. now rewrite app_nil_r.
Qed.

(** The invariant is kept by both supervisor functions, whether or not
    the start goes through. *)
Lemma terminate_tor_process_one_session (u : bool) (w : world) :
  one_session w -> one_session (snd (terminate_tor_process u w)).
Proof.
  intros H. rewrite terminate_tor_process_eq. simpl.
  intros p. rewrite terminated_running.
  rewrite stop_running_one_session; [set_solver | exact H].
Qed.

Lemma start_tor_process_one_session (c : string) (e : start_env) (w : world) :
  one_session w -> one_session (snd (start_tor_process c e w)).
Proof.
  intros H.
  assert (Hterm : one_session (terminated (unresponsive e) (emit (CallStart c) w))).
  { apply (terminate_tor_process_one_session (unresponsive e) (emit (CallStart c) w)).
    exact H. }
  assert (Hempty : running (terminated (unresponsive e) (emit (CallStart c) w)) = ∅).
  { rewrite terminated_running.
    apply (stop_running_one_session _ (emit CallTerminate (emit (CallStart c) w))).
    exact H. }
  run. fold (terminated (unresponsive e) (emit (CallStart c) w)) in *.
  destruct (ensure_tor_files e) as [tor_path|]; [|exact Hterm].
  destruct (tor_exists e); simpl; [|exact Hterm].
  destruct (popen e) as [p|]; simpl.
  - intros q. simpl. rewrite Hempty, union_empty_r_L.
    intros ->%elem_of_singleton. now split.
  - intros q. simpl. rewrite Hempty. intros []%elem_of_empty.
Qed.

(** A reference that survives a call points to no existing file. *)
Lemma terminated_torrc_path (u : bool) (w : world) (path : string) :
  torrc_path (terminated u w) = Some path ->
  truthy path && os_path_exists path (terminated u w) = false.
Proof.
  unfold terminated.
  set (w0 := set_tor_started_by_us false _).
  unfold remove_torrc.
  destruct (torrc_path w0) as [path0|] eqn:Hpath; [|now rewrite Hpath].
  destruct (truthy path0 && os_path_exists path0 w0) eqn:Hcond.
  - discriminate.
  - rewrite Hpath. now intros [= <-].
Qed.

(** A call in a world without process handle and without removable file
    only records itself. *)
Lemma terminated_idle (u : bool) (w : world) :
  tor_process w = None ->
  (forall path, torrc_path w = Some path ->
                truthy path && os_path_exists path w = false) ->
  terminated u w
  = set_tor_started_by_us false (set_tor_process None (emit CallTerminate w)).
Proof.
  intros Hp Hstale. unfold terminated, stop_running. simpl. rewrite Hp.
  unfold remove_torrc. simpl.
  destruct (torrc_path w) as [path|]; [|reflexivity].
  specialize (Hstale path eq_refl). unfold os_path_exists in *. simpl.
  now rewrite Hstale.
Qed.

(** A call in a world that holds a running process of ours and an
    existing configuration file. *)
Lemma terminated_active (u : bool) (w : world) (p : pid) (path : string) :
  tor_process w = Some p -> tor_started_by_us w = true -> p ∈ running w ->
  torrc_path w = Some path -> truthy path = true ->
  is_Some (files w !! path) ->
  running (terminated u w) = running w ∖ {[p]} /\
  files (terminated u w) = delete path (files w) /\
  torrc_path (terminated u w) = None /\
  log (terminated u w)
  = (log w ++ [CallTerminate; SigTerm p] ++ (if u then [SigKill p] else [])
       ++ [Unlink path])%list.
Proof.
  intros Hp Hours Hrun Hpath Htruthy Hfile.
  unfold terminated, stop_running. simpl. rewrite Hp, Hours.
  unfold poll_is_none. simpl. rewrite bool_decide_eq_true_2 by exact Hrun.
  simpl. unfold remove_torrc.
  destruct u; simpl; rewrite Hpath, Htruthy; unfold os_path_exists; simpl;
    rewrite Htruthy, bool_decide_eq_true_2 by exact Hfile; simpl;
    rewrite <- ?app_assoc; auto.
Qed.

(** A call in a world that holds a process of ours, running or not, and
    an existing configuration file. *)
Lemma terminated_session (u : bool) (w : world) (p : pid) (path : string) :
  tor_process w = Some p -> tor_started_by_us w = true ->
  torrc_path w = Some path -> truthy path = true ->
  is_Some (files w !! path) ->
  running (terminated u w) = running w ∖ {[p]} /\
  files (terminated u w) = delete path (files w) /\
  torrc_path (terminated u w) = None /\
  log (terminated u w)
  = (log w ++ CallTerminate ::
       (if bool_decide (p ∈ running w)
        then SigTerm p :: (if u then [SigKill p] else []) else [])
       ++ [Unlink path])%list.
Proof.
  intros Hp Hours Hpath Htruthy Hfile.
  destruct (decide (p ∈ running w)) as [Hin | Hout].
  - destruct (terminated_active u w p path Hp Hours Hin Hpath Htruthy Hfile)
      as (Hrun & Hfl & Hrc & Hlog).
    rewrite bool_decide_eq_true_2 by exact Hin.
    split; [exact Hrun|]. split; [exact Hfl|]. split; [exact Hrc|].
    rewrite Hlog. now destruct u.
  - rewrite bool_decide_eq_false_2 by exact Hout.
    unfold terminated, stop_running. simpl. rewrite Hp, Hours.
    unfold poll_is_none. simpl. rewrite bool_decide_eq_false_2 by exact Hout.
    simpl. unfold remove_torrc. simpl. rewrite Hpath, Htruthy.
    unfold os_path_exists. simpl.
    rewrite Htruthy, bool_decide_eq_true_2 by exact Hfile. simpl.
    split; [symmetry; apply difference_disjoint_L; now apply disjoint_singleton_r|].
    split; [reflexivity|].
    split; [reflexivity|]. now rewrite <- app_assoc.
Qed.

(** C7. Two calls of [terminate_tor_process] in a row: both return
    normally, the second sends no signal and removes no file, and it
    leaves the globals, the processes and the files as the first left
    them; all it adds to the record is its own entry. *)
Theorem terminate_tor_process_idempotent (u1 u2 : bool) (w : world) :
  let r1 := terminate_tor_process u1 w in
  let r2 := terminate_tor_process u2 (snd r1) in
  fst r1 = Ok tt /\ fst r2 = Ok tt /\
  log (snd r2) = (log (snd r1) ++ [CallTerminate])%list /\
  signals (log (snd r2)) = signals (log (snd r1)) /\
  tor_process (snd r2) = tor_process (snd r1) /\
  torrc_path (snd r2) = torrc_path (snd r1) /\
  tor_started_by_us (snd r2) = tor_started_by_us (snd r1) /\
  running (snd r2) = running (snd r1) /\
  files (snd r2) = files (snd r1).
Proof.
  cbv zeta. rewrite terminate_tor_process_eq. cbn [fst snd].
  rewrite terminate_tor_process_eq. cbn [fst snd].
  rewrite (terminated_idle u2 (terminated u1 w)).
  - simpl. rewrite terminated_tor_process, terminated_started, signals_app.
    simpl. rewrite app_nil_r. repeat split.
  - apply terminated_tor_process.
  - apply terminated_torrc_path.
Qed.

Lemma terminated_not_ours (u : bool) (w : world) :
  tor_started_by_us w = false ->
  signals (log (terminated u w)) = signals (log w) /\
  running (terminated u w) = running w.
Proof.
  intros H. rewrite terminated_running. unfold terminated.
  rewrite remove_torrc_signals. simpl.
  rewrite (stop_running_not_ours u (emit CallTerminate w)) by exact H.
  simpl. rewrite signals_app. simpl. now rewrite app_nil_r.
Qed.

Lemma terminated_removes (u : bool) (w : world) (path : string) :
  torrc_path w = Some path -> os_path_exists path w = true ->
  torrc_path (terminated u w) = None /\ files (terminated u w) !! path = None.
Proof.
  intros Hpath Hexists. unfold terminated, remove_torrc. simpl.
  destruct (stop_running_fields u (emit CallTerminate w)) as (_ & -> & _ & Hfiles).
  simpl. rewrite Hpath.
  assert (Hcond : truthy path &&
            os_path_exists path
              (set_tor_started_by_us false
                 (set_tor_process None (stop_running u (emit CallTerminate w))))
            = true).
  { unfold os_path_exists in *. simpl. rewrite Hfiles. simpl.
    apply andb_true_iff in Hexists as [-> ->]. reflexivity. }
  rewrite Hcond. simpl. split; [reflexivity | apply lookup_delete_eq].
Qed.

(** C6, as the code has it. While [tor_started_by_us] is off, neither
    [terminate_tor_process] nor [start_tor_process] sends a signal, and
    every process that ran before still runs afterwards; and
    [terminate_tor_process] deletes the configuration file that
    [torrc_path] names and forgets the name, whenever that file exists. *)
Theorem not_started_by_us_never_signalled (w : world) :
  tor_started_by_us w = false ->
  (forall u,
     let w' := snd (terminate_tor_process u w) in
     signals (log w') = signals (log w) /\
     running w' = running w /\
     forall path, torrc_path w = Some path -> os_path_exists path w = true ->
       torrc_path w' = None /\ files w' !! path = None) /\
  (forall c e,
     let w' := snd (start_tor_process c e w) in
     signals (log w') = signals (log w) /\
     running w ⊆ running w').
Proof.
  intros Hours. split.
  - intros u. rewrite terminate_tor_process_eq. simpl.
    destruct (terminated_not_ours u w Hours) as [Hsig Hrun].
    split; [exact Hsig | split; [exact Hrun |]].
    intros path Hpath Hexists. now apply terminated_removes.
  - intros c e.
    destruct (terminated_not_ours (unresponsive e) (emit (CallStart c) w) Hours)
      as [Hsig Hrun].
    simpl in Hsig, Hrun. rewrite signals_app in Hsig. simpl in Hsig.
    rewrite app_nil_r in Hsig.
    run. fold (terminated (unresponsive e) (emit (CallStart c) w)).
    destruct (ensure_tor_files e) as [tor_path|]; simpl;
      [|split; [exact Hsig | now rewrite Hrun]].
    destruct (tor_exists e); simpl; [|split; [exact Hsig | now rewrite Hrun]].
    destruct (popen e) as [p|]; simpl.
    + rewrite signals_app. simpl. rewrite app_nil_r, Hrun.
      split; [exact Hsig | clear; set_solver].
    + split; [exact Hsig | now rewrite Hrun].
Qed.

Lemma not_started_by_us_never_signalled_witness :
  (forall u,
     let w' := snd (terminate_tor_process u Samples.foreign_proxy) in
     signals (log w') = signals (log Samples.foreign_proxy) /\
     running w' = running Samples.foreign_proxy /\
     forall path, torrc_path Samples.foreign_proxy = Some path ->
       os_path_exists path Samples.foreign_proxy = true ->
       torrc_path w' = None /\ files w' !! path = None) /\
  (forall c e,
     let w' := snd (start_tor_process c e Samples.foreign_proxy) in
     signals (log w') = signals (log Samples.foreign_proxy) /\
     running Samples.foreign_proxy ⊆ running w').
Proof.
  apply (not_started_by_us_never_signalled Samples.foreign_proxy).
  reflexivity.
Defined.

(** C6 as worded fails: with the flag off and a [torrc_path] whose file
    is gone, [terminate_tor_process] keeps the reference. *)
Lemma stale_reference_survives_terminate :
  tor_started_by_us Samples.stale_reference = false /\
  torrc_path Samples.stale_reference = Some "/tmp/tmpk3v9x2aa.torrc" /\
  os_path_exists "/tmp/tmpk3v9x2aa.torrc" Samples.stale_reference = false /\
  torrc_path (snd (terminate_tor_process false Samples.stale_reference))
  = Some "/tmp/tmpk3v9x2aa.torrc".
Proof. repeat split. Qed.

(** C5. Two successful starts in a row, from a world with at most one
    session: after the second, the only running proxy process is the one
    it launched; the first process was signalled and the configuration
    file of the first start was removed before the launch, so that no
    file of that name is left unless the second start reuses the name;
    and at most one session exists after each start. *)
Theorem restart_leaves_one_session
    (c1 c2 : string) (e1 e2 : start_env) (w0 w1 w2 : world) :
  one_session w0 ->
  start_tor_process c1 e1 w0 = (Ok tt, w1) ->
  start_tor_process c2 e2 w1 = (Ok tt, w2) ->
  exists p1 p2 tor2,
    popen e1 = Ok p1 /\ popen e2 = Ok p2 /\ ensure_tor_files e2 = Ok tor2 /\
    running w1 = {[p1]} /\
    running w2 = {[p2]} /\ tor_process w2 = Some p2 /\
    tor_started_by_us w2 = true /\
    log w2 = (log w1 ++ [CallStart c2; CallTerminate; SigTerm p1]
                ++ (if unresponsive e2 then [SigKill p1] else [])
                ++ [Unlink (tmp_name e1); Spawn p2 [tor2; "-f"; tmp_name e2]])%list /\
    (tmp_name e1 <> tmp_name e2 -> files w2 !! tmp_name e1 = None) /\
    files w2 !! tmp_name e2 = Some (torrc_content c2) /\
    one_session w1 /\ one_session w2.
Proof.
  intros Hinv H1 H2.
  pose proof (start_tor_process_one_session c1 e1 w0 Hinv) as Hinv1.
  rewrite H1 in Hinv1. simpl in Hinv1.
  pose proof (start_tor_process_one_session c2 e2 w1 Hinv1) as Hinv2.
  rewrite H2 in Hinv2. simpl in Hinv2.
  apply start_tor_process_ok in H1 as (tor1 & p1 & _ & _ & Hp1 & H1).
  apply start_tor_process_ok in H2 as (tor2 & p2 & Ht2 & _ & Hp2 & H2).
  simpl in H1, H2.
  destruct H1 as (Htp1 & Hrc1 & Hst1 & Hrun1 & Hfl1 & _).
  destruct H2 as (Htp2 & Hrc2 & Hst2 & Hrun2 & Hfl2 & Hlog2).
  rewrite terminated_running in Hrun1.
  rewrite (stop_running_one_session (unresponsive e1)
             (emit CallTerminate (emit (CallStart c1) w0)) Hinv) in Hrun1.
  assert (Hr1 : running w1 = {[p1]}) by (rewrite Hrun1; apply union_empty_r_L).
  destruct (terminated_active (unresponsive e2) (emit (CallStart c2) w1) p1 (tmp_name e1))
    as (Hrun & Hfl & _ & Hlog); simpl.
  { exact Htp1. } { exact Hst1. } { rewrite Hr1. clear. set_solver. }
  { exact Hrc1. } { apply truthy_tmp_name. }
  { rewrite Hfl1, lookup_insert_eq. eauto. }
  simpl in Hrun, Hfl, Hlog.
  exists p1, p2, tor2.
  split; [exact Hp1|]. split; [exact Hp2|]. split; [exact Ht2|].
  split; [exact Hr1|].
  split; [rewrite Hrun2, Hrun, Hr1, difference_diag_L; apply union_empty_r_L|].
  split; [exact Htp2|]. split; [exact Hst2|].
  split.
  { rewrite Hlog2, Hlog. rewrite <- !app_assoc. simpl.
    now destruct (unresponsive e2). }
  split.
  { intros Hne. rewrite Hfl2, Hfl.
    rewrite lookup_insert_ne by congruence. apply lookup_delete_eq. }
  split; [rewrite Hfl2; apply lookup_insert_eq|].
  split; [exact Hinv1 | exact Hinv2].
Qed.

Lemma restart_leaves_one_session_witness :
  exists p1 p2 tor2,
    popen Samples.start_se = Ok p1 /\ popen Samples.start_ch = Ok p2 /\
    ensure_tor_files Samples.start_ch = Ok tor2 /\
    running Samples.after_se = {[p1]} /\
    running Samples.after_ch = {[p2]} /\ tor_process Samples.after_ch = Some p2 /\
    tor_started_by_us Samples.after_ch = true /\
    log Samples.after_ch
    = (log Samples.after_se ++ [CallStart "ch"; CallTerminate; SigTerm p1]
         ++ (if unresponsive Samples.start_ch then [SigKill p1] else [])
         ++ [Unlink (tmp_name Samples.start_se);
             Spawn p2 [tor2; "-f"; tmp_name Samples.start_ch]])%list /\
    (tmp_name Samples.start_se <> tmp_name Samples.start_ch ->
     files Samples.after_ch !! tmp_name Samples.start_se = None) /\
    files Samples.after_ch !! tmp_name Samples.start_ch = Some (torrc_content "ch") /\
    one_session Samples.after_se /\ one_session Samples.after_ch.
Proof.
  apply (restart_leaves_one_session "se" "ch" Samples.start_se Samples.start_ch
           (initial ∅ ∅)).
  - intros p Hp. simpl in Hp. set_solver.
  - reflexivity.
  - reflexivity.
Defined.

End SupervisorFacts.

(* ===================================================================== *)
(** ** Facts about [download_video] *)
(* ===================================================================== *)

Module RotationFacts.
Import Py Supervisor Rotation Program SupervisorFacts.

(** The record of a call of [terminate_tor_process]: its entry, then
    signals and removals only. *)
Lemma terminated_log (u : bool) (w : world) :
  exists mid, log (terminated u w) = (log w ++ CallTerminate :: mid)%list /\
              Forall (fun e => cleanup e = true) mid.
Proof.
  unfold terminated, stop_running, remove_torrc. simpl.
  destruct (tor_process w) as [p|]; simpl.
  - destruct (poll_is_none p (emit CallTerminate w) && tor_started_by_us w); simpl.
    + destruct u; simpl; destruct (torrc_path w) as [path|]; simpl;
        try destruct (truthy path && _); simpl;
        rewrite <- ?app_assoc; simpl;
        eexists; (split; [reflexivity | repeat constructor]).
    + destruct (torrc_path w) as [path|]; simpl;
        try destruct (truthy path && _); simpl;
        rewrite <- ?app_assoc; simpl;
        eexists; (split; [reflexivity | repeat constructor]).
  - destruct (torrc_path w) as [path|]; simpl;
      try destruct (truthy path && _); simpl;
      rewrite <- ?app_assoc; simpl;
      eexists; (split; [reflexivity | repeat constructor]).
Qed.

(** A start that finds its files and gets its process returns normally;
    its record is the two entries, the clean-up, and the launch. *)
Lemma start_tor_process_starts (c : string) (e : start_env) (w : world) :
  is_ok (ensure_tor_files e) = true -> tor_exists e = true ->
  is_ok (popen e) = true ->
  exists w' tor_path p mid,
    start_tor_process c e w = (Ok tt, w') /\
    log w' = (log w ++ [CallStart c; CallTerminate] ++ mid
                ++ [Spawn p [tor_path; "-f"; tmp_name e]])%list /\
    Forall (fun e => cleanup e = true) mid.
Proof.
  intros Hfiles Hexists Hpopen.
  destruct (terminated_log (unresponsive e) (emit (CallStart c) w))
    as (mid & Hlog & Hmid).
  run. fold (terminated (unresponsive e) (emit (CallStart c) w)).
  destruct (ensure_tor_files e) as [tor_path|]; [|discriminate].
  rewrite Hexists. simpl.
  destruct (popen e) as [p|]; [|discriminate].
  eexists _, tor_path, p, mid. split; [reflexivity|]. simpl. split; [|exact Hmid].
  rewrite Hlog. simpl. rewrite <- !app_assoc. reflexivity.
Qed.

(** One pass, statement by statement. *)
Lemma attempt_country_eq (url country : string) (a : attempt) (w : world) :
  attempt_country url country a w =
  match start_tor_process country (start_answers a) (emit (trying country) w) with
  | (Raise e, w1) => (Raise e, w1)
  | (Ok _, w1) =>
      let w2 := snd (process_may_exit (exits_early a) w1) in
      if wait_for_tor readiness_timeout (wait_start a) (polls a) then
        match test_tor_connection (probe a) w2 with
        | (Raise e, w3) => (Raise e, w3)
        | (Ok _, w3) =>
            match fetch a with
            | None =>
                (Ok true, emit (Print "Download succeeded!") (emit (Fetch url) w3))
            | Some e =>
                (Ok false,
                 emit (Print ("Failed via " +:+ upper country +:+ ": " +:+ exn_str e))
                   (emit (Fetch url) w3))
            end
        end
      else (Ok false, emit (Print "Tor failed to start, trying next country") w2)
  end.
Proof.
  unfold attempt_country, trying, mbind, M_bind, bind, print, modify. simpl.
  destruct (start_tor_process _ _ _) as [[[]|e] w1]; [|reflexivity].
  destruct (wait_for_tor _ _ _); simpl; [|reflexivity].
  unfold try_except, ydl_download, mbind, M_bind, bind, modify.
  destruct (test_tor_connection _ _) as [[[]|e] w3]; [|reflexivity].
  destruct (fetch a); reflexivity.
Qed.

Lemma log_emit (e : event) (w : world) : log (emit e w) = (log w ++ [e])%list.
Proof. reflexivity. Qed.

Lemma process_may_exit_log (early : bool) (w : world) :
  log (snd (process_may_exit early w)) = log w.
Proof.
  unfold process_may_exit, modify. simpl.
  destruct (tor_process w); [|reflexivity]. now destruct early.
Qed.

(** A pass in which the proxy is launched and never becomes ready. *)
Lemma attempt_country_not_ready (url country : string) (a : attempt) (w : world) :
  starts a -> not_ready a ->
  exists w' tor_path p mid,
    attempt_country url country a w = (Ok false, w') /\
    log w' = (log w ++ [trying country; CallStart country; CallTerminate] ++ mid
                ++ [Spawn p [tor_path; "-f"; tmp_name (start_answers a)];
                    Print "Tor failed to start, trying next country"])%list /\
    Forall (fun e => cleanup e = true) mid.
Proof.
  intros (Hfiles & Hexists & Hpopen) Hwait.
  destruct (start_tor_process_starts country (start_answers a)
              (emit (trying country) w) Hfiles Hexists Hpopen)
    as (w1 & tor_path & p & mid & Hstart & Hlog & Hmid).
  rewrite attempt_country_eq, Hstart. unfold not_ready in Hwait.
  rewrite Hwait. cbv zeta.
  eexists _, tor_path, p, mid. split; [reflexivity|]. split; [|exact Hmid].
  rewrite log_emit, process_may_exit_log, Hlog. simpl.
  rewrite <- !app_assoc. simpl. rewrite <- !app_assoc. reflexivity.
Qed.

Lemma filter_cleanup (keep : event -> bool) (mid : list event) :
  (forall e, cleanup e = true -> keep e = false) ->
  Forall (fun e => cleanup e = true) mid -> List.filter keep mid = [].
Proof.
  intros Hkeep. induction 1 as [|e mid He _ IH]; simpl; [reflexivity|].
  now rewrite (Hkeep e He).
Qed.

Lemma cleanup_not_call (e : event) : cleanup e = true -> is_call e = false.
Proof. now destruct e. Qed.
Lemma cleanup_not_spawn (e : event) : cleanup e = true -> is_spawn e = false.
Proof. now destruct e. Qed.
Lemma cleanup_not_fetch (e : event) : cleanup e = true -> is_fetch e = false.
Proof. now destruct e. Qed.

(** The loop when no proxy ever becomes ready: it runs to the end of the
    list, with one start (and the terminate inside it) per country, in
    order, one launch per country, and no call of the fetcher. *)
Lemma for_countries_not_ready (url : string) (oracle : nat -> attempt)
    (countries : list string) (i : nat) (w : world) :
  (forall j, (j < length countries)%nat ->
             starts (oracle (i + j)%nat) /\ not_ready (oracle (i + j)%nat)) ->
  exists w' new,
    for_countries url oracle i countries w = (Ok false, w') /\
    log w' = (log w ++ new)%list /\
    List.filter is_call new
      = flat_map (fun c => [CallStart c; CallTerminate]) countries /\
    length (List.filter is_spawn new) = length countries /\
    List.filter is_fetch new = [].
Proof.
  revert i w. induction countries as [|c rest IH]; intros i w Hall.
  - exists w, []. simpl. rewrite app_nil_r. repeat split.
  - destruct (Hall 0%nat) as [Hstarts Hwait]; [simpl; lia|].
    rewrite Nat.add_0_r in Hstarts, Hwait.
    destruct (attempt_country_not_ready url c (oracle i) w Hstarts Hwait)
      as (w1 & tor_path & p & mid & Hpass & Hlog1 & Hmid).
    destruct (IH (S i) w1) as (w' & new & Hloop & Hlog & Hcalls & Hspawns & Hfetch).
    { intros j Hj. replace (S i + j)%nat with (i + S j)%nat by lia.
      apply Hall. simpl. lia. }
    exists w'. eexists. simpl. unfold mbind, M_bind, bind.
    rewrite Hpass, Hloop. split; [reflexivity|].
    split; [rewrite Hlog, Hlog1, <- app_assoc; reflexivity|].
    rewrite !List.filter_app.
    rewrite (filter_cleanup is_call mid cleanup_not_call Hmid).
    rewrite (filter_cleanup is_spawn mid cleanup_not_spawn Hmid).
    rewrite (filter_cleanup is_fetch mid cleanup_not_fetch Hmid).
    simpl. rewrite Hcalls, Hspawns, Hfetch. repeat split.
Qed.

(** One pass in which the proxy is launched and never becomes ready,
    from the state the passes before it left. *)
Lemma attempt_country_between (url : string) (procs : gset pid)
    (fs : gmap string string) (countries : list string)
    (oracle : nat -> attempt) (i : nat) (w : world) :
  between_passes procs fs countries oracle i w ->
  starts (oracle i) -> not_ready (oracle i) ->
  (forall j p, (j <= i)%nat ->
     launched (start_answers (oracle j)) = Some p -> p ∉ procs) ->
  exists w',
    attempt_country url (nth i countries "") (oracle i) w = (Ok false, w') /\
    log w' = (log w ++ not_ready_pass countries oracle i)%list /\
    between_passes procs fs countries oracle (S i) w'.
Proof.
  intros Hw (Hfiles & Hexists & Hpopen) Hwait Hfresh.
  set (c := nth i countries "").
  destruct (start_tor_process_starts c (start_answers (oracle i))
              (emit (trying c) w) Hfiles Hexists Hpopen)
    as (w1 & tp0 & p0 & mid & Hstart & _ & _).
  destruct (start_tor_process_ok c _ _ w1 Hstart)
    as (tor_path & p & Etor & _ & Epop & H1).
  cbv zeta in H1.
  destruct H1 as (Htp1 & Hrc1 & Hst1 & Hrun1 & Hfl1 & Hlog1).
  assert (Hlaunched : launched (start_answers (oracle i)) = Some p)
    by (unfold launched; now rewrite Epop).
  assert (Hp : p ∉ procs) by (apply (Hfresh i p); [lia | exact Hlaunched]).
  rewrite attempt_country_eq. fold c. rewrite Hstart.
  unfold not_ready in Hwait. rewrite Hwait. cbv zeta.
  eexists. split; [reflexivity|].
  assert (Hexit :
    let w2 := snd (process_may_exit (exits_early (oracle i)) w1) in
    tor_process w2 = Some p /\ tor_started_by_us w2 = true /\
    torrc_path w2 = Some (tmp_name (start_answers (oracle i))) /\
    files w2 = files w1 /\ log w2 = log w1 /\
    running w2 = if exits_early (oracle i) then running w1 ∖ {[p]} else running w1).
  { unfold process_may_exit, modify. simpl. rewrite Htp1.
    destruct (exits_early (oracle i)); simpl; repeat split; assumption. }
  cbv zeta in Hexit.
  remember (snd (process_may_exit (exits_early (oracle i)) w1)) as w2 eqn:Ew2.
  clear Ew2. destruct Hexit as (Htp2 & Hst2 & Hrc2 & Hfl2 & Hlog2 & Hrun2).
  rewrite log_emit, Hlog2, Hlog1.
  unfold not_ready_pass, launch. fold c. rewrite Etor, Epop.
  destruct i as [|j].
  - destruct Hw as (Hp0 & Hrc0 & Hst0 & Hrun0 & Hfl0).
    assert (Hidle : terminated (unresponsive (start_answers (oracle 0%nat)))
                      (emit (CallStart c) (emit (trying c) w))
                    = set_tor_started_by_us false
                        (set_tor_process None
                           (emit CallTerminate
                              (emit (CallStart c) (emit (trying c) w))))).
    { apply terminated_idle; [exact Hp0|].
      intros path. simpl. rewrite Hrc0. discriminate. }
    rewrite Hidle in Hrun1, Hfl1 |- *.
    simpl in Hrun1, Hfl1. split.
    + simpl. rewrite <- !app_assoc. reflexivity.
    + exists p. simpl. split; [exact Hlaunched|].
      split; [exact Htp2|]. split; [exact Hst2|]. split; [exact Hrc2|].
      split.
      * rewrite Hrun2, Hrun1, Hrun0.
        destruct (exits_early (oracle 0%nat)); [|apply union_comm_L].
        rewrite difference_union_distr_l_L, difference_diag_L, union_empty_l_L.
        apply difference_disjoint_L. now apply disjoint_singleton_r.
      * intros path. rewrite Hfl2, Hfl1, Hfl0.
        destruct (decide (path = tmp_name (start_answers (oracle 0%nat)))) as [-> | Hne].
        -- apply lookup_insert_eq.
        -- rewrite lookup_insert_ne by congruence.
           destruct (decide (path ∈ torrc_names oracle 0)) as [Hin | _];
             [inversion Hin | reflexivity].
  - destruct Hw as (q & Hq & Hp0 & Hst0 & Hrc0 & Hrun0 & Hfl0).
    assert (Hqp : q ∉ procs) by (apply (Hfresh j q); [lia | exact Hq]).
    destruct (terminated_session (unresponsive (start_answers (oracle (S j))))
                (emit (CallStart c) (emit (trying c) w)) q
                (tmp_name (start_answers (oracle j))))
      as (Hrun & Hfl & _ & Hlog); simpl.
    { exact Hp0. } { exact Hst0. } { exact Hrc0. } { apply truthy_tmp_name. }
    { rewrite Hfl0. rewrite decide_True by reflexivity. eauto. }
    simpl in Hrun, Hfl, Hlog.
    assert (Hstopped : running w ∖ {[q]} = procs).
    { rewrite Hrun0. destruct (exits_early (oracle j)).
      - apply difference_disjoint_L. now apply disjoint_singleton_r.
      - rewrite difference_union_distr_l_L, difference_diag_L, union_empty_r_L.
        apply difference_disjoint_L. now apply disjoint_singleton_r. }
    split.
    + rewrite Hlog. unfold stopping. rewrite Hq.
      assert (Hpoll : bool_decide (q ∈ running w) = negb (exits_early (oracle j))).
      { rewrite Hrun0. destruct (exits_early (oracle j)); simpl.
        - now apply bool_decide_eq_false_2.
        - apply bool_decide_eq_true_2, elem_of_union_r, elem_of_singleton. reflexivity. }
      rewrite Hpoll. destruct (exits_early (oracle j)); simpl;
        rewrite <- !app_assoc; simpl; rewrite <- ?app_assoc; reflexivity.
    + exists p. simpl. split; [exact Hlaunched|].
      split; [exact Htp2|]. split; [exact Hst2|]. split; [exact Hrc2|].
      split.
      * rewrite Hrun2, Hrun1, Hrun, Hstopped.
        destruct (exits_early (oracle (S j))); [|apply union_comm_L].
        rewrite difference_union_distr_l_L, difference_diag_L, union_empty_l_L.
        apply difference_disjoint_L. now apply disjoint_singleton_r.
      * intros path. rewrite Hfl2, Hfl1, Hfl.
        destruct (decide (path = tmp_name (start_answers (oracle (S j))))) as [-> | Hne].
        -- apply lookup_insert_eq.
        -- rewrite lookup_insert_ne by congruence.
           unfold torrc_names. rewrite seq_S, map_app. simpl.
           destruct (decide (path = tmp_name (start_answers (oracle j)))) as [-> | Hne'].
           ++ rewrite lookup_delete_eq.
              rewrite decide_True; [reflexivity|].
              apply elem_of_app. right. apply list_elem_of_singleton. reflexivity.
           ++ rewrite lookup_delete_ne by congruence. rewrite Hfl0.
              rewrite decide_False by exact Hne'.
              fold (torrc_names oracle j).
              destruct (decide (path ∈ torrc_names oracle j)) as [Hin | Hout].
              ** rewrite decide_True; [reflexivity|]. apply elem_of_app. now left.
              ** rewrite decide_False; [reflexivity|].
                 intros [Hin | Hin%list_elem_of_singleton]%elem_of_app; congruence.
Qed.

(** The loop when every proxy is launched and none becomes ready, from
    the state left by the countries already [done]. *)
Lemma for_countries_between (url : string) (procs : gset pid)
    (fs : gmap string string) (oracle : nat -> attempt)
    (countries rest done : list string) (w : world) :
  countries = (done ++ rest)%list ->
  between_passes procs fs countries oracle (length done) w ->
  (forall i, (i < length countries)%nat ->
     starts (oracle i) /\ not_ready (oracle i)) ->
  (forall i p, (i < length countries)%nat ->
     launched (start_answers (oracle i)) = Some p -> p ∉ procs) ->
  exists w',
    for_countries url oracle (length done) rest w = (Ok false, w') /\
    log w' = (log w ++ flat_map (not_ready_pass countries oracle)
                         (seq (length done) (length rest)))%list /\
    between_passes procs fs countries oracle (length countries) w'.
Proof.
  revert done w. induction rest as [|c rest IH]; intros done w Hsplit Hw Hall Hfresh.
  - exists w. simpl. rewrite app_nil_r in *. subst countries.
    repeat split. exact Hw.
  - assert (Hlen : (length done < length countries)%nat).
    { subst countries. rewrite length_app. simpl. lia. }
    assert (Hc : nth (length done) countries "" = c).
    { subst countries. apply nth_middle. }
    destruct (Hall _ Hlen) as [Hstarts Hwait].
    destruct (attempt_country_between url procs fs countries oracle (length done) w
                Hw Hstarts Hwait) as (w1 & Hpass & Hlog1 & Hw1).
    { intros j p Hj. apply Hfresh. lia. }
    rewrite Hc in Hpass.
    destruct (IH (done ++ [c])%list w1) as (w' & Hloop & Hlog & Hw').
    { rewrite <- app_assoc. exact Hsplit. }
    { rewrite length_app. simpl. rewrite Nat.add_1_r. exact Hw1. }
    { exact Hall. } { exact Hfresh. }
    rewrite length_app in Hloop, Hlog. simpl in Hloop, Hlog.
    rewrite Nat.add_1_r in Hloop, Hlog.
    exists w'. simpl. unfold mbind, M_bind, bind. rewrite Hpass, Hloop.
    split; [reflexivity|]. split; [|exact Hw'].
    rewrite Hlog, Hlog1, <- app_assoc. reflexivity.
Qed.

(** C4, as the code has it. When every country's proxy is launched and
    none becomes ready, [download_video] over a list of N countries
    returns normally after N passes in the order of the list. Each pass
    calls [start_tor_process], which first calls [terminate_tor_process];
    from the second pass on this stops the proxy of the pass before and
    removes its configuration file, and then the new proxy is launched.
    The fetcher is never called and the last output is the failure line.
    On return the proxy of the last pass is still the session the
    globals hold: it runs, unless it has ended by itself, and its
    configuration file is on disk, while the files of the passes before
    are gone. Only the exit hook stops it: afterwards the processes are
    those found at the start and no configuration file is left. *)
Theorem all_not_ready_rotation (countries : list string) (url ffmpeg : string)
    (oracle : nat -> attempt) (procs : gset pid) (fs : gmap string string)
    (u : bool) :
  (forall i, (i < length countries)%nat ->
     starts (oracle i) /\ not_ready (oracle i)) ->
  (forall i p, (i < length countries)%nat ->
     launched (start_answers (oracle i)) = Some p -> p ∉ procs) ->
  let N := length countries in
  let r := download_video_over countries url (Ok ffmpeg) oracle (initial procs fs) in
  let w := snd r in
  let w_exit :=
    snd (main_over countries url (Ok ffmpeg) oracle u (initial procs fs)) in
  fst r = Ok tt /\
  log w = (flat_map (not_ready_pass countries oracle) (seq 0 N)
             ++ [Print "All Tor exit nodes failed."])%list /\
  calls (log w) = flat_map cycle countries /\
  count is_spawn (log w) = N /\
  List.filter is_fetch (log w) = [] /\
  (forall k, N = S k ->
     exists p, launched (start_answers (oracle k)) = Some p /\
       tor_process w = Some p /\ tor_started_by_us w = true /\
       torrc_path w = Some (tmp_name (start_answers (oracle k))) /\
       running w = (if exits_early (oracle k) then procs else procs ∪ {[p]}) /\
       files w !! tmp_name (start_answers (oracle k))
       = Some (torrc_content (nth k countries "")) /\
       forall path, path ∈ torrc_names oracle k ->
         path <> tmp_name (start_answers (oracle k)) -> files w !! path = None) /\
  log w_exit
  = (log w ++ CallTerminate ::
       match N with O => [] | S k => stopping u (oracle k) end)%list /\
  running w_exit = procs /\
  tor_process w_exit = None /\ tor_started_by_us w_exit = false /\
  torrc_path w_exit = None /\
  forall path, files w_exit !! path
               = if decide (path ∈ torrc_names oracle N) then None else fs !! path.
Proof.
  intros Hall Hfresh N r w w_exit.
  destruct (for_countries_between url procs fs oracle countries countries []
              (initial procs fs) eq_refl) as (w' & Hloop & Hlog & Hw');
    [simpl; repeat split | exact Hall | exact Hfresh |].
  destruct (for_countries_not_ready url oracle countries 0 (initial procs fs) Hall)
    as (w'' & new & Hloop' & Hlog' & Hcalls & Hspawns & Hfetch).
  simpl in Hloop, Hlog, Hloop', Hlog'.
  rewrite Hloop in Hloop'. injection Hloop' as <-. subst new.
  assert (HN : N = length countries) by reflexivity. clearbody N.
  rewrite <- HN in Hw', Hlog, Hspawns, Hfresh.
  assert (Hr : r = (Ok tt, emit (Print "All Tor exit nodes failed.") w')).
  { unfold r, download_video_over, mbind, M_bind, bind, answer.
    now rewrite Hloop. }
  assert (Hexit : w_exit
    = terminated u (emit (Print "All Tor exit nodes failed.") w')).
  { unfold w_exit, main_over. fold r. rewrite Hr. reflexivity. }
  unfold w. rewrite Hr. cbn [fst snd]. clear Hr w r.
  split; [reflexivity|].
  split; [rewrite log_emit, Hlog; reflexivity|].
  split.
  { unfold calls. rewrite log_emit, List.filter_app, Hcalls. simpl.
    apply app_nil_r. }
  split.
  { unfold count. rewrite log_emit, List.filter_app, length_app, Hspawns.
    simpl. apply Nat.add_0_r. }
  split.
  { rewrite log_emit, List.filter_app, Hfetch. reflexivity. }
  split.
  { intros k Hk. rewrite Hk in Hw'.
    destruct Hw' as (p & Hp & Htp & Hst & Hrc & Hrun & Hfl).
    exists p. simpl. split; [exact Hp|]. split; [exact Htp|].
    split; [exact Hst|]. split; [exact Hrc|]. split; [exact Hrun|].
    split.
    - rewrite Hfl. now rewrite decide_True.
    - intros path Hin Hne. rewrite Hfl.
      rewrite decide_False by exact Hne. now rewrite decide_True. }
  rewrite Hexit. destruct N as [|k].
  - destruct Hw' as (Htp & Hrc & Hst & Hrun & Hfl).
    rewrite (terminated_idle u (emit (Print "All Tor exit nodes failed.") w')).
    2: exact Htp.
    2: { intros path. simpl. rewrite Hrc. discriminate. }
    simpl. repeat split; try assumption.
    intros path. rewrite Hfl.
    destruct (decide (path ∈ torrc_names oracle 0)) as [Hin | _];
      [inversion Hin | reflexivity].
  - destruct Hw' as (p & Hp & Htp & Hst & Hrc & Hrun & Hfl).
    assert (Hpp : p ∉ procs).
    { apply (Hfresh k p); [lia | exact Hp]. }
    destruct (terminated_session u (emit (Print "All Tor exit nodes failed.") w')
                p (tmp_name (start_answers (oracle k))))
      as (Hrun' & Hfl' & Hrc' & Hlog''); simpl.
    { exact Htp. } { exact Hst. } { exact Hrc. } { apply truthy_tmp_name. }
    { rewrite Hfl. rewrite decide_True by reflexivity. eauto. }
    simpl in Hrun', Hfl', Hlog''.
    split.
    { rewrite Hlog''. unfold stopping. rewrite Hp. rewrite Hrun.
      destruct (exits_early (oracle k)); simpl.
      - now rewrite bool_decide_eq_false_2.
      - rewrite bool_decide_eq_true_2; [reflexivity|].
        apply elem_of_union_r, elem_of_singleton. reflexivity. }
    split.
    { rewrite Hrun', Hrun. destruct (exits_early (oracle k)).
      - apply difference_disjoint_L. now apply disjoint_singleton_r.
      - rewrite difference_union_distr_l_L, difference_diag_L, union_empty_r_L.
        apply difference_disjoint_L. now apply disjoint_singleton_r. }
    split; [apply terminated_tor_process|].
    split; [apply terminated_started|].
    split; [exact Hrc'|].
    intros path. rewrite Hfl'.
    unfold torrc_names. rewrite seq_S, map_app. simpl.
    fold (torrc_names oracle k).
    destruct (decide (path = tmp_name (start_answers (oracle k)))) as [-> | Hne].
    + rewrite lookup_delete_eq. rewrite decide_True; [reflexivity|].
      apply elem_of_app. right. apply list_elem_of_singleton. reflexivity.
    + rewrite lookup_delete_ne by congruence. rewrite Hfl.
      rewrite decide_False by exact Hne.
      destruct (decide (path ∈ torrc_names oracle k)) as [Hin | Hout].
      * rewrite decide_True; [reflexivity|]. apply elem_of_app. now left.
      * rewrite decide_False; [reflexivity|].
        intros [Hin | Hin%list_elem_of_singleton]%elem_of_app; congruence.
Qed.

Lemma never_ready_fails (i : nat) :
  starts (Samples.never_ready i) /\ not_ready (Samples.never_ready i).
Proof. repeat split. Qed.

Lemma all_not_ready_rotation_witness :
  let N := length SAFE_COUNTRIES in
  let oracle := Samples.never_ready in
  let r := download_video_over SAFE_COUNTRIES Samples.some_url
             (Ok Samples.ffmpeg_exe) oracle (initial ∅ ∅) in
  let w := snd r in
  let w_exit :=
    snd (main_over SAFE_COUNTRIES Samples.some_url (Ok Samples.ffmpeg_exe)
           oracle false (initial ∅ ∅)) in
  fst r = Ok tt /\
  log w = (flat_map (not_ready_pass SAFE_COUNTRIES oracle) (seq 0 N)
             ++ [Print "All Tor exit nodes failed."])%list /\
  calls (log w) = flat_map cycle SAFE_COUNTRIES /\
  count is_spawn (log w) = N /\
  List.filter is_fetch (log w) = [] /\
  (forall k, N = S k ->
     exists p, launched (start_answers (oracle k)) = Some p /\
       tor_process w = Some p /\ tor_started_by_us w = true /\
       torrc_path w = Some (tmp_name (start_answers (oracle k))) /\
       running w = (if exits_early (oracle k) then ∅ else ∅ ∪ {[p]}) /\
       files w !! tmp_name (start_answers (oracle k))
       = Some (torrc_content (nth k SAFE_COUNTRIES "")) /\
       forall path, path ∈ torrc_names oracle k ->
         path <> tmp_name (start_answers (oracle k)) -> files w !! path = None) /\
  log w_exit
  = (log w ++ CallTerminate ::
       match N with O => [] | S k => stopping false (oracle k) end)%list /\
  running w_exit = ∅ /\
  tor_process w_exit = None /\ tor_started_by_us w_exit = false /\
  torrc_path w_exit = None /\
  forall path, files w_exit !! path
               = if decide (path ∈ torrc_names oracle N) then None
                 else (∅ : gmap string string) !! path.
Proof.
  apply (all_not_ready_rotation SAFE_COUNTRIES Samples.some_url Samples.ffmpeg_exe
           Samples.never_ready ∅ ∅ false).
  - intros i _. apply never_ready_fails.
  - intros i p _ _. apply not_elem_of_empty.
Defined.

(** C4 as worded fails: over the eight countries of the script, with no
    proxy ever ready, [download_video] launches eight proxies and, by
    the time it returns, has stopped seven of them and removed seven
    configuration files. The eighth start is followed by no terminate:
    its proxy still runs and its file is still on disk. *)
Lemma last_proxy_runs_on_return :
  let w := snd (download_video Samples.some_url (Ok Samples.ffmpeg_exe)
                  Samples.never_ready (initial ∅ ∅)) in
  (forall i, starts (Samples.never_ready i) /\ not_ready (Samples.never_ready i)) /\
  length SAFE_COUNTRIES = 8%nat /\
  List.filter is_spawn (log w)
  = map (fun i => Spawn (100 + i)%nat
                    ["/opt/app/tor/tor"; "-f"; "/tmp/tmp" +:+ pretty i +:+ ".torrc"])
      (seq 0 8) /\
  signals (log w) = map (fun i => SigTerm (100 + i)%nat) (seq 0 7) /\
  List.filter is_unlink (log w)
  = map (fun i => Unlink ("/tmp/tmp" +:+ pretty i +:+ ".torrc")) (seq 0 7) /\
  last (calls (log w)) = Some CallTerminate /\
  last (List.filter (fun e => is_call e || is_spawn e) (log w))
  = Some (Spawn 107%nat ["/opt/app/tor/tor"; "-f"; "/tmp/tmp7.torrc"]) /\
  tor_process w = Some 107%nat /\
  running w = {[107%nat]} /\
  files w !! "/tmp/tmp7.torrc" = Some (torrc_content "de").
Proof.
  split; [exact never_ready_fails|]. vm_compute. repeat split.
Qed.

(** *** Passes that fail, and the pass that succeeds *)

Lemma cleanup_not_succeeded (mid : list event) :
  Forall (fun e => cleanup e = true) mid -> ~ In succeeded mid.
Proof.
  intros Hmid Hin. rewrite List.Forall_forall in Hmid.
  now specialize (Hmid _ Hin).
Qed.

Lemma test_tor_connection_returns (o : probe_outcome) (w : world) :
  o = ProbeNotOk \/ (exists ip t, o = ProbeOk ip t) ->
  exists w' out,
    test_tor_connection o w = (Ok tt, w') /\
    log w' = (log w ++ Probe :: out)%list /\ ~ In succeeded out.
Proof.
  intros [-> | (ip & t & ->)].
  - exists (emit Probe w), []. repeat split. intros [].
  - eexists _, [_]. split; [reflexivity|]. split; [simpl|].
    + now rewrite <- app_assoc.
    + intros [H | []]. discriminate H.
Qed.

(** The record of a pass up to and including the launch does not hold
    the success line. *)
Lemma launch_not_succeeded (c tor_path tmp : string) (p : pid) (mid : list event) :
  Forall (fun e => cleanup e = true) mid ->
  ~ In succeeded
      ([trying c; CallStart c; CallTerminate] ++ mid ++ [Spawn p [tor_path; "-f"; tmp]]).
Proof.
  intros Hmid Hin. apply in_app_or in Hin as [Hin | Hin].
  - destruct Hin as [H | [H | [H | []]]]; discriminate H.
  - apply in_app_or in Hin as [Hin | Hin].
    + now apply (cleanup_not_succeeded mid).
    + destruct Hin as [H | []]. discriminate H.
Qed.

Lemma attempt_country_fails (url country : string) (a : attempt) (w : world) :
  fails a ->
  exists w' new,
    attempt_country url country a w = (Ok false, w') /\
    log w' = (log w ++ new)%list /\ ~ In succeeded new.
Proof.
  intros [Hstarts [Hwait | (Hready & Hprobe & e & Hfetch)]].
  - destruct (attempt_country_not_ready url country a w Hstarts Hwait)
      as (w' & tor_path & p & mid & Hpass & Hlog & Hmid).
    exists w'. eexists. split; [exact Hpass|]. split; [exact Hlog|].
    intros Hin. apply in_app_or in Hin as [Hin | Hin].
    + destruct Hin as [H | [H | [H | []]]]; discriminate H.
    + apply in_app_or in Hin as [Hin | Hin];
        [now apply (cleanup_not_succeeded mid)|].
      destruct Hin as [H | [H | []]]; discriminate H.
  - destruct Hstarts as (Hfiles & Hexists & Hpopen).
    destruct (start_tor_process_starts country (start_answers a)
                (emit (trying country) w) Hfiles Hexists Hpopen)
      as (w1 & tor_path & p & mid & Hstart & Hlog1 & Hmid).
    destruct (test_tor_connection_returns (probe a)
                (snd (process_may_exit (exits_early a) w1)) Hprobe)
      as (w3 & out & Hprobed & Hlog3 & Hout).
    rewrite attempt_country_eq, Hstart. unfold ready in Hready.
    rewrite Hready. cbv zeta. rewrite Hprobed, Hfetch.
    eexists. exists (([trying country; CallStart country; CallTerminate] ++ mid
               ++ [Spawn p [tor_path; "-f"; tmp_name (start_answers a)]])
              ++ (Probe :: out)
              ++ [Fetch url;
                  Print ("Failed via " +:+ upper country +:+ ": " +:+ exn_str e)])%list.
    split; [reflexivity|]. split.
    + rewrite !log_emit, Hlog3, process_may_exit_log, Hlog1, log_emit.
      rewrite <- !app_assoc. reflexivity.
    + intros Hin. apply in_app_or in Hin as [Hin | Hin].
      * now apply (launch_not_succeeded country tor_path
                     (tmp_name (start_answers a)) p mid Hmid).
      * apply in_app_or in Hin as [[H | Hin] | Hin].
        -- discriminate H.
        -- now apply Hout.
        -- destruct Hin as [H | [H | []]]; discriminate H.
Qed.

Lemma attempt_country_succeeds (url country : string) (a : attempt) (w : world) :
  succeeds a ->
  exists w' new,
    attempt_country url country a w = (Ok true, w') /\
    log w' = (log w ++ new ++ [Fetch url; succeeded])%list.
Proof.
  intros ((Hfiles & Hexists & Hpopen) & Hready & Hprobe & Hfetch).
  destruct (start_tor_process_starts country (start_answers a)
              (emit (trying country) w) Hfiles Hexists Hpopen)
    as (w1 & tor_path & p & mid & Hstart & Hlog1 & Hmid).
  destruct (test_tor_connection_returns (probe a)
              (snd (process_may_exit (exits_early a) w1)) Hprobe)
    as (w3 & out & Hprobed & Hlog3 & Hout).
  rewrite attempt_country_eq, Hstart. unfold ready in Hready.
  rewrite Hready. cbv zeta. rewrite Hprobed, Hfetch.
  eexists. exists (([trying country; CallStart country; CallTerminate] ++ mid
             ++ [Spawn p [tor_path; "-f"; tmp_name (start_answers a)]])
            ++ (Probe :: out))%list.
  split; [reflexivity|].
  rewrite !log_emit, Hlog3, process_may_exit_log, Hlog1, log_emit.
  rewrite <- !app_assoc. reflexivity.
Qed.

Lemma for_countries_fails (url : string) (oracle : nat -> attempt)
    (countries : list string) (i : nat) (w : world) :
  (forall j, (j < length countries)%nat -> fails (oracle (i + j)%nat)) ->
  exists w' new,
    for_countries url oracle i countries w = (Ok false, w') /\
    log w' = (log w ++ new)%list /\ ~ In succeeded new.
Proof.
  revert i w. induction countries as [|c rest IH]; intros i w Hall.
  - exists w, []. simpl. rewrite app_nil_r. repeat split. intros [].
  - assert (Hfails : fails (oracle i)).
    { rewrite <- (Nat.add_0_r i). apply Hall. simpl. lia. }
    destruct (attempt_country_fails url c (oracle i) w Hfails)
      as (w1 & new1 & Hpass & Hlog1 & Hnew1).
    destruct (IH (S i) w1) as (w' & new & Hloop & Hlog & Hnew).
    { intros j Hj. replace (S i + j)%nat with (i + S j)%nat by lia.
      apply Hall. simpl. lia. }
    exists w', (new1 ++ new)%list. simpl. unfold mbind, M_bind, bind.
    rewrite Hpass, Hloop. split; [reflexivity|].
    split; [rewrite Hlog, Hlog1, <- app_assoc; reflexivity|].
    intros Hin. apply in_app_or in Hin as [Hin | Hin]; tauto.
Qed.

(** The loop stops at the first pass that succeeds. *)
Lemma for_countries_succeeds (url : string) (oracle : nat -> attempt)
    (countries : list string) (k i : nat) (w : world) :
  (k < length countries)%nat ->
  (forall j, (j < k)%nat -> fails (oracle (i + j)%nat)) ->
  succeeds (oracle (i + k)%nat) ->
  exists w' new,
    for_countries url oracle i countries w = (Ok true, w') /\
    log w' = (log w ++ new ++ [Fetch url; succeeded])%list.
Proof.
  revert k i w. induction countries as [|c rest IH]; intros k i w Hk Hfail Hok.
  - simpl in Hk. lia.
  - simpl. unfold mbind, M_bind, bind. destruct k as [|k].
    + rewrite Nat.add_0_r in Hok.
      destruct (attempt_country_succeeds url c (oracle i) w Hok)
        as (w' & new & Hpass & Hlog).
      rewrite Hpass. exists w', new. split; [reflexivity | exact Hlog].
    + assert (Hfails : fails (oracle i)).
      { rewrite <- (Nat.add_0_r i). apply Hfail. lia. }
      destruct (attempt_country_fails url c (oracle i) w Hfails)
        as (w1 & new1 & Hpass & Hlog1 & _).
      destruct (IH k (S i) w1) as (w' & new & Hloop & Hlog).
      { simpl in Hk. lia. }
      { intros j Hj. replace (S i + j)%nat with (i + S j)%nat by lia.
        apply Hfail. lia. }
      { replace (S i + k)%nat with (i + S k)%nat by lia. exact Hok. }
      rewrite Hpass, Hloop. exists w', (new1 ++ new)%list.
      split; [reflexivity|]. rewrite Hlog, Hlog1, <- !app_assoc. reflexivity.
Qed.

(** C2, as the code has it. When every pass fails, by a readiness
    timeout or by an error of the fetcher, [download_video] raises
    nothing and returns [None]; the failure shows only in its output,
    which ends with the failure line and never holds the success line.
    Any run whose first non-failing pass succeeds returns the same
    value. *)
Theorem all_failed_returns_like_success (countries : list string)
    (url ffmpeg : string) (oracle : nat -> attempt) (w : world) :
  (forall i, (i < length countries)%nat -> fails (oracle i)) ->
  let r := download_video_over countries url (Ok ffmpeg) oracle w in
  fst r = Ok tt /\
  (exists new, log (snd r) = (log w ++ new)%list /\
               last new = Some (Print "All Tor exit nodes failed.") /\
               ~ In (Print "Download succeeded!") new) /\
  (forall countries' url' ffmpeg' oracle' w' k,
     (k < length countries')%nat ->
     (forall i, (i < k)%nat -> fails (oracle' i)) ->
     succeeds (oracle' k) ->
     fst (download_video_over countries' url' (Ok ffmpeg') oracle' w') = fst r).
Proof.
  intros Hall.
  destruct (for_countries_fails url oracle countries 0 w Hall)
    as (w1 & new & Hloop & Hlog & Hnew).
  unfold download_video_over, mbind, M_bind, bind, answer. cbv zeta.
  rewrite Hloop. simpl. split; [reflexivity|]. split.
  - exists (new ++ [Print "All Tor exit nodes failed."])%list.
    rewrite Hlog, <- app_assoc, last_snoc. repeat split.
    intros Hin. apply in_app_or in Hin as [Hin | [H | []]];
      [now apply Hnew | discriminate H].
  - intros countries' url' ffmpeg' oracle' w' k Hk Hfail Hok.
    destruct (for_countries_succeeds url' oracle' countries' k 0 w' Hk Hfail Hok)
      as (w2 & new2 & Hloop2 & _).
    now rewrite Hloop2.
Qed.

Lemma fetch_fails_fails (i : nat) : fails (Samples.fetch_fails i).
Proof.
  split; [repeat split|]. right. split; [reflexivity|].
  split; [right; eauto | eauto].
Qed.

Lemma third_succeeds_fails (i : nat) :
  (i < 2)%nat -> fails (Samples.third_succeeds i).
Proof.
  intros Hi. split; [repeat split|]. right. split; [reflexivity|].
  split; [right; eauto|].
  destruct i as [|[|i]]; [simpl; eauto | simpl; eauto | lia].
Qed.

Lemma third_succeeds_succeeds : succeeds (Samples.third_succeeds 2).
Proof. repeat split. right. eauto. Qed.

Lemma all_failed_returns_like_success_witness :
  let r := download_video Samples.some_url (Ok Samples.ffmpeg_exe)
             Samples.fetch_fails (initial ∅ ∅) in
  fst r = Ok tt /\
  (exists new, log (snd r) = (log (initial ∅ ∅) ++ new)%list /\
               last new = Some (Print "All Tor exit nodes failed.") /\
               ~ In (Print "Download succeeded!") new) /\
  (forall countries' url' ffmpeg' oracle' w' k,
     (k < length countries')%nat ->
     (forall i, (i < k)%nat -> fails (oracle' i)) ->
     succeeds (oracle' k) ->
     fst (download_video_over countries' url' (Ok ffmpeg') oracle' w') = fst r).
Proof.
  apply (all_failed_returns_like_success SAFE_COUNTRIES Samples.some_url
           Samples.ffmpeg_exe Samples.fetch_fails (initial ∅ ∅)).
  intros i _. apply fetch_fails_fails.
Defined.

(** C2 as worded fails: a run in which every country fails and a run in
    which the third country succeeds return the same value. *)
Lemma failed_run_returns_what_success_returns :
  let failed := download_video Samples.some_url (Ok Samples.ffmpeg_exe)
                  Samples.fetch_fails (initial ∅ ∅) in
  let fetched := download_video Samples.some_url (Ok Samples.ffmpeg_exe)
                   Samples.third_succeeds (initial ∅ ∅) in
  (forall i, fails (Samples.fetch_fails i)) /\
  last (log (snd failed)) = Some (Print "All Tor exit nodes failed.") /\
  last (log (snd fetched)) = Some (Print "Download succeeded!") /\
  fst failed = fst fetched.
Proof.
  split; [exact fetch_fails_fails|]. vm_compute. repeat split.
Qed.

(** *** The probe *)

(** A probe that raises ends the pass, and with it the loop, before the
    fetcher is called. *)
Lemma attempt_country_probe_raises (url country : string) (a : attempt)
    (w : world) (e : exn) :
  starts a -> ready a ->
  probe a = ProbeRaises e \/ probe a = ProbeBadJson e ->
  exists w', attempt_country url country a w = (Raise e, w') /\
             List.filter is_fetch (log w') = List.filter is_fetch (log w).
Proof.
  intros (Hfiles & Hexists & Hpopen) Hready Hprobe.
  destruct (start_tor_process_starts country (start_answers a)
              (emit (trying country) w) Hfiles Hexists Hpopen)
    as (w1 & tor_path & p & mid & Hstart & Hlog1 & Hmid).
  rewrite attempt_country_eq, Hstart. unfold ready in Hready.
  rewrite Hready. cbv zeta.
  exists (emit Probe (snd (process_may_exit (exits_early a) w1))).
  split; [destruct Hprobe as [-> | ->]; reflexivity|].
  rewrite log_emit, process_may_exit_log, Hlog1, log_emit.
  rewrite !List.filter_app.
  rewrite (filter_cleanup is_fetch mid cleanup_not_fetch Hmid).
  simpl. now rewrite !app_nil_r.
Qed.

(** C1 fails on the code. The proxy for the first country is ready and
    the request to the check service times out: [download_video] raises
    that exception, the fetcher is never called, and no other country is
    tried. *)
Theorem probe_exception_aborts_download_video :
  let r := download_video Samples.some_url (Ok Samples.ffmpeg_exe)
             Samples.probe_times_out (initial ∅ ∅) in
  starts (Samples.probe_times_out 0) /\ ready (Samples.probe_times_out 0) /\
  probe (Samples.probe_times_out 0)
    = ProbeRaises (ConnectionError "Read timed out.") /\
  fst r = Raise (ConnectionError "Read timed out.") /\
  List.filter is_fetch (log (snd r)) = [] /\
  List.filter is_call (log (snd r)) = [CallStart "se"; CallTerminate].
Proof. vm_compute. repeat split. Qed.

End RotationFacts.

(* ===================================================================== *)
(** ** More about [sanitize_filename] *)
(* ===================================================================== *)

Module UtilMore.
Import Py Util UtilFacts.

Lemma re_sub_class_empty_app (cls : list ascii) (a b : string) :
  re_sub_class_empty cls (a +:+ b)
  = re_sub_class_empty cls a +:+ re_sub_class_empty cls b.
Proof.
  induction a as [|c a IH]; simpl; [reflexivity|].
  destruct (char_in c cls); simpl; now rewrite IH.
Qed.

Lemma replace_char_app (x y : ascii) (a b : string) :
  replace_char x y (a +:+ b) = replace_char x y a +:+ replace_char x y b.
Proof. induction a as [|c a IH]; simpl; [reflexivity | now rewrite IH]. Qed.

Lemma string_length_app (a b : string) :
  String.length (a +:+ b) = (String.length a + String.length b)%nat.
Proof. induction a as [|c a IH]; simpl; [reflexivity | now rewrite IH]. Qed.

(** X1. Sanitizing works character by character: the sanitized form of a
    concatenation is the concatenation of the sanitized forms. *)
Theorem sanitize_filename_app (a b : string) :
  sanitize_filename (a +:+ b) = sanitize_filename a +:+ sanitize_filename b.
Proof.
  unfold sanitize_filename. now rewrite re_sub_class_empty_app, replace_char_app.
Qed.

Lemma re_sub_class_empty_length (cls : list ascii) (s : string) :
  (String.length (re_sub_class_empty cls s) <= String.length s)%nat.
Proof.
  induction s as [|c s IH]; simpl; [lia|]. destruct (char_in c cls); simpl; lia.
Qed.

Lemma re_sub_class_empty_same_length (cls : list ascii) (s : string) :
  String.length (re_sub_class_empty cls s) = String.length s ->
  forall c, In c (chars s) -> char_in c cls = false.
Proof.
  induction s as [|a s IH]; simpl; [tauto|].
  pose proof (re_sub_class_empty_length cls s) as Hle.
  destruct (char_in a cls) eqn:Ha; simpl; intros Hlen; [lia|].
  intros c [<- | Hc]; [exact Ha|]. apply IH; [lia | exact Hc].
Qed.

Lemma replace_char_length (x y : ascii) (s : string) :
  String.length (replace_char x y s) = String.length s.
Proof. induction s as [|c s IH]; simpl; [reflexivity | now rewrite IH]. Qed.

Lemma replace_char_same (x y : ascii) (s : string) :
  x <> y -> replace_char x y s = s -> ~ In x (chars s).
Proof.
  intros Hxy. induction s as [|c s IH]; simpl; [tauto|].
  intros [= Hc Hs] [<- | Hin]; [|now apply IH].
  rewrite Ascii.eqb_refl in Hc. congruence.
Qed.

(** X2. The names that [sanitize_filename] leaves as they are are exactly
    those without a forbidden character and without a space; any other
    name comes out changed, and never longer. *)
Theorem sanitize_filename_fixed_iff (name : string) :
  (sanitize_filename name = name <->
   forall c, In c (chars name) -> ~ In c forbidden /\ c <> " "%char) /\
  (String.length (sanitize_filename name) <= String.length name)%nat.
Proof.
  split; [split|].
  - intros Hfix c Hc. rewrite <- Hfix in Hc.
    apply sanitize_filename_chars in Hc as [Hf Hsp]. split; [|exact Hsp].
    intros Hin. apply char_in_spec in Hin. congruence.
  - intros Hclean. unfold sanitize_filename.
    rewrite re_sub_class_empty_fixed.
    + apply replace_char_fixed. intros Hin. now destruct (Hclean _ Hin).
    + intros c Hc. destruct (char_in c forbidden) eqn:E; [|reflexivity].
      apply char_in_spec in E. now destruct (Hclean _ Hc).
  - unfold sanitize_filename. rewrite replace_char_length.
    apply re_sub_class_empty_length.
Qed.

(** X3. Distinct names can collide: a space and an underscore in the same
    place give the same result, and a forbidden character gives the
    same result as its absence. *)
Theorem sanitize_filename_collisions (a b : string) (c : ascii) :
  In c forbidden ->
  sanitize_filename (a +:+ " " +:+ b) = sanitize_filename (a +:+ "_" +:+ b) /\
  a +:+ " " +:+ b <> a +:+ "_" +:+ b /\
  sanitize_filename (a +:+ String c b) = sanitize_filename (a +:+ b) /\
  a +:+ String c b <> a +:+ b.
Proof.
  intros Hc. split; [|split; [|split]].
  - now rewrite !sanitize_filename_app.
  - induction a as [|x a IH]; simpl; [discriminate|].
    intros [= H]. now apply IH.
  - rewrite !sanitize_filename_app. f_equal.
    change (String c b) with (String c "" +:+ b).
    rewrite sanitize_filename_app.
    apply char_in_spec in Hc. unfold sanitize_filename at 1.
    cbn [re_sub_class_empty]. now rewrite Hc.
  - intros Heq. apply (f_equal String.length) in Heq.
    rewrite !string_length_app in Heq. simpl in Heq. lia.
Qed.

Lemma sanitize_filename_collisions_witness :
  sanitize_filename ("My" +:+ " " +:+ "Video") = sanitize_filename ("My" +:+ "_" +:+ "Video") /\
  "My" +:+ " " +:+ "Video" <> "My" +:+ "_" +:+ "Video" /\
  sanitize_filename ("My" +:+ String "/"%char "Video") = sanitize_filename ("My" +:+ "Video") /\
  "My" +:+ String "/"%char "Video" <> "My" +:+ "Video".
Proof.
  apply (sanitize_filename_collisions "My" "Video" "/"%char).
  simpl. tauto.
Defined.

End UtilMore.


(* ===================================================================== *)
(** ** Facts about the bundle name *)
(* ===================================================================== *)

Module PlatformFacts.
Import Py Platform.

Lemma lower_char_idem (c : ascii) : lower_char (lower_char c) = lower_char c.
Proof. destruct c as [[] [] [] [] [] [] [] []]; reflexivity. Qed.

Lemma lower_idem (s : string) : lower (lower s) = lower s.
Proof.
  induction s as [|c s IH]; simpl; [reflexivity|].
  now rewrite lower_char_idem, IH.
Qed.

(** X4. The pair chosen is always one of the seven of [known_bundles]; the
    only failure is the [RuntimeError] for a system that is neither
    Windows, macOS nor Linux; and upper and lower case in the two inputs
    make no difference. *)
Theorem bundle_platform_known (system machine : string) :
  match bundle_platform system machine with
  | Ok b => In b known_bundles
  | Raise e =>
      e = RuntimeError ("Unsupported OS: " +:+ lower system) /\
      String.prefix "win" (lower system) = false /\
      lower system <> "darwin" /\ lower system <> "linux"
  end /\
  bundle_platform (lower system) (lower machine) = bundle_platform system machine.
Proof.
  split.
  - unfold bundle_platform, known_bundles.
    destruct (String.prefix "win" (lower system)) eqn:Hwin.
    { destruct (contains "64" (lower machine)); simpl; tauto. }
    destruct (String.eqb_spec (lower system) "darwin") as [Hd | Hd].
    { destruct (contains "arm" (lower machine)); simpl; tauto. }
    destruct (String.eqb_spec (lower system) "linux") as [Hl | Hl].
    { destruct (contains "aarch64" (lower machine) || contains "arm64" (lower machine));
        [simpl; tauto|].
      destruct (contains "arm" (lower machine)); simpl; tauto. }
    repeat split; assumption.
  - unfold bundle_platform. now rewrite !lower_idem.
Qed.

End PlatformFacts.



(* ===================================================================== *)
(** ** More about the version selection *)
(* ===================================================================== *)

Module VersionsMore.
Import Py Versions VersionsFacts.

Lemma int_raises (s : string) (e : exn) :
  int s = Raise e -> exists msg, e = ValueError msg.
Proof.
  unfold int. destruct s; [intros [= <-]; eauto|].
  destruct (_ <? _)%nat; [intros [= <-]; eauto|].
  destruct (int_digits _ _); [discriminate|]. intros [= <-]. eauto.
Qed.

Lemma map_int_raises (fields : list string) (e : exn) :
  map_int fields = Raise e -> exists msg, e = ValueError msg.
Proof.
  induction fields as [|x fields IH]; simpl; [discriminate|].
  destruct (int x) as [n|e'] eqn:Hx.
  - destruct (map_int fields); [discriminate|]. intros [= <-]. now apply IH.
  - intros [= <-]. now apply (int_raises x).
Qed.

Lemma map_int_empty_field (fields : list string) :
  In EmptyString fields -> exists e, map_int fields = Raise e.
Proof.
  induction fields as [|x fields IH]; simpl; [tauto|].
  intros [-> | Hin]; [simpl; eauto|].
  destruct (int x); [|eauto]. destruct (IH Hin) as [e ->]. eauto.
Qed.

Lemma decorate_raises (vs : list string) (v : string) (e : exn) :
  In v vs -> key v = Raise e -> exists msg, decorate vs = Raise (ValueError msg).
Proof.
  induction vs as [|x vs IH]; simpl; [tauto|]. intros Hin Hv.
  destruct (key x) as [k|e'] eqn:Hx.
  - destruct Hin as [-> | Hin]; [congruence|].
    destruct (IH Hin Hv) as [msg ->]. eauto.
  - destruct (map_int_raises _ _ Hx) as [msg ->]. eauto.
Qed.

(** X5. The two ways the selection fails. Without any version it raises
    [IndexError]. A version with an empty field between, before or after
    its dots makes it raise [ValueError], wherever that version stands
    and whatever the other versions are. *)
Theorem latest_errors (matches : list string) :
  (List.filter has_no_a matches = [] -> latest matches = Raise IndexError) /\
  (forall v, In v (List.filter has_no_a matches) ->
             In EmptyString (split "."%char v) ->
             exists msg, latest matches = Raise (ValueError msg)).
Proof.
  unfold latest. split.
  - now intros ->.
  - intros v Hin Hempty. destruct (map_int_empty_field _ Hempty) as [e He].
    destruct (decorate_raises _ v e Hin He) as [msg ->]. eauto.
Qed.

Lemma decorate_ok (vs : list string) (ds : list (list Z * string)) :
  decorate vs = Ok ds ->
  map snd ds = vs /\ Forall (fun d => key (snd d) = Ok (fst d)) ds.
Proof.
  revert ds. induction vs as [|v vs IH]; simpl; intros ds.
  - intros [= <-]. split; [reflexivity | constructor].
  - destruct (key v) as [k|] eqn:Hk; [|discriminate].
    destruct (decorate vs) as [ds'|]; [|discriminate]. intros [= <-].
    destruct (IH ds' eq_refl) as [Hsnd Hall]. simpl. rewrite Hsnd.
    split; [reflexivity | now constructor].
Qed.

Lemma last_cons_nonempty {A} (x d : A) (l : list A) :
  l <> [] -> List.last (x :: l) d = List.last l d.
Proof. now destruct l. Qed.

Lemma insort_nonempty (x : list Z * string) (l : list (list Z * string)) :
  insort x l <> [].
Proof.
  destruct l as [|y l]; simpl; [discriminate|].
  now destruct (list_lt (fst y) (fst x)).
Qed.

(** The last element after an insertion. *)
Lemma last_insort (x d : list Z * string) (l : list (list Z * string)) :
  StronglySorted key_le l -> l <> [] ->
  List.last (insort x l) d
  = if list_lt (fst (List.last l d)) (fst x) then x else List.last l d.
Proof.
  induction 1 as [|y l Hs IH Hall]; [congruence|]. intros _.
  destruct l as [|z l].
  - simpl. now destruct (list_lt (fst y) (fst x)).
  - rewrite (last_cons_nonempty y d (z :: l)) by discriminate.
    change (insort x (y :: z :: l))
      with (if list_lt (fst y) (fst x) then y :: insort x (z :: l)
            else x :: y :: z :: l).
    destruct (list_lt (fst y) (fst x)) eqn:Hyx.
    + rewrite last_cons_nonempty by apply insort_nonempty.
      apply IH. discriminate.
    + rewrite !last_cons_nonempty by discriminate.
      assert (Hle : key_le x (List.last (z :: l) d)).
      { apply key_le_trans with y; [exact Hyx|].
        rewrite List.Forall_forall in Hall. apply Hall, last_In. discriminate. }
      unfold key_le in Hle. now rewrite Hle.
Qed.

(** Where the last element of the sorted list stood before the sort:
    nothing in front of it has a greater key, and everything behind it
    has a smaller one. *)
Lemma sort_last_position (ds : list (list Z * string)) (d : list Z * string) :
  ds <> [] ->
  exists l1 l2,
    ds = (l1 ++ List.last (sort ds) d :: l2)%list /\
    (forall w, In w l1 -> list_lt (fst (List.last (sort ds) d)) (fst w) = false) /\
    (forall w, In w l2 -> list_lt (fst w) (fst (List.last (sort ds) d)) = true).
Proof.
  induction ds as [|x rest IH]; [congruence|]. intros _.
  destruct rest as [|y rest'].
  - exists [], []. simpl. repeat split; intros w [].
  - destruct IH as (l1 & l2 & Hsplit & Hbefore & Hafter); [discriminate|].
    set (m := List.last (sort (y :: rest')) d) in *.
    assert (Hlast : List.last (sort (x :: y :: rest')) d
                    = if list_lt (fst m) (fst x) then x else m).
    { change (sort (x :: y :: rest')) with (insort x (sort (y :: rest'))).
      apply last_insort; [apply sort_sorted|].
      intros Hnil. assert (Hin : In y (sort (y :: rest'))) by (apply sort_In; now left).
      rewrite Hnil in Hin. destruct Hin. }
    rewrite Hlast. destruct (list_lt (fst m) (fst x)) eqn:Hmx.
    + exists [], (y :: rest'). split; [reflexivity|]. split; [intros w []|].
      intros w Hw. rewrite Hsplit in Hw.
      apply in_app_or in Hw as [Hw | [<- | Hw]].
      * specialize (Hbefore w Hw).
        destruct (list_lt (fst w) (fst m)) eqn:Hwm.
        -- now apply list_lt_trans with (fst m).
        -- now rewrite (list_lt_connex _ _ Hwm Hbefore).
      * exact Hmx.
      * apply list_lt_trans with (fst m); [now apply Hafter | exact Hmx].
    + exists (x :: l1), l2. split; [simpl; now rewrite <- Hsplit|].
      split; [|exact Hafter].
      intros w [<- | Hw]; [exact Hmx | now apply Hbefore].
Qed.

(** X6. Ties go to the version that comes last. Whenever the selection
    returns a version, that version splits the list of versions so that
    nothing in front of it has a greater key and everything behind it
    has a strictly smaller key. *)
Theorem latest_is_last_maximal (matches : list string) (v : string) :
  latest matches = Ok v ->
  exists l1 l2 kv,
    List.filter has_no_a matches = (l1 ++ v :: l2)%list /\
    key v = Ok kv /\
    (forall w, In w l1 -> exists kw, key w = Ok kw /\ list_lt kv kw = false) /\
    (forall w, In w l2 -> exists kw, key w = Ok kw /\ list_lt kw kv = true).
Proof.
  unfold latest.
  destruct (decorate (List.filter has_no_a matches)) as [ds|] eqn:Hdec;
    [|discriminate].
  destruct (decorate_ok _ _ Hdec) as [Hsnd Hkeys].
  destruct ds as [|d0 ds0] eqn:Eds; [discriminate|]. rewrite <- Eds in *.
  assert (Hne : ds <> []) by (rewrite Eds; discriminate).
  assert (Hsne : sort ds <> []).
  { intros Hnil. assert (Hin : In d0 (sort ds)) by (apply sort_In; rewrite Eds; now left).
    rewrite Hnil in Hin. destruct Hin. }
  rewrite (last_map_some snd (sort ds) d0 Hsne). intros [= <-].
  destruct (sort_last_position ds d0 Hne) as (l1 & l2 & Hsplit & Hbefore & Hafter).
  set (m := List.last (sort ds) d0) in *.
  rewrite List.Forall_forall in Hkeys.
  assert (Hm : In m ds) by (rewrite Hsplit; apply in_or_app; right; now left).
  exists (map snd l1), (map snd l2), (fst m).
  split; [rewrite <- Hsnd, Hsplit, map_app; reflexivity|].
  split; [now apply Hkeys|]. split.
  - intros w Hw. apply in_map_iff in Hw as (d & <- & Hd).
    exists (fst d). split; [|now apply Hbefore].
    apply Hkeys. rewrite Hsplit. apply in_or_app. now left.
  - intros w Hw. apply in_map_iff in Hw as (d & <- & Hd).
    exists (fst d). split; [|now apply Hafter].
    apply Hkeys. rewrite Hsplit. apply in_or_app. right. now right.
Qed.

Lemma latest_is_last_maximal_witness :
  exists l1 l2 kv,
    List.filter has_no_a ["13.0"; "013.0"; "9.9"; "13.00"; "12.5"]
    = (l1 ++ "13.00" :: l2)%list /\
    key "13.00" = Ok kv /\
    (forall w, In w l1 -> exists kw, key w = Ok kw /\ list_lt kv kw = false) /\
    (forall w, In w l2 -> exists kw, key w = Ok kw /\ list_lt kw kv = true).
Proof.
  apply (latest_is_last_maximal ["13.0"; "013.0"; "9.9"; "13.00"; "12.5"] "13.00").
  reflexivity.
Defined.

End VersionsMore.

(* ===================================================================== *)
(** ** Facts about the version listing *)
(* ===================================================================== *)

Module ListingFacts.
Import Py Versions Listing.

Lemma span_class (cls : ascii -> bool) (s run tail : string) :
  span cls s = (run, tail) ->
  Forall (fun c => cls c = true) (chars run) /\ s = run +:+ tail.
Proof.
  revert run tail. induction s as [|c s IH]; simpl; intros run tail.
  - intros [= <- <-]. split; [constructor | reflexivity].
  - destruct (cls c) eqn:Hc.
    + destruct (span cls s) as [run' tail'] eqn:Hs. intros [= <- <-].
      destruct (IH run' tail' eq_refl) as [Hall ->].
      split; [now constructor | reflexivity].
    + intros [= <- <-]. split; [constructor | reflexivity].
Qed.

Lemma match_here_group (s v : string) (len : nat) :
  match_here s = Some (v, len) ->
  v <> EmptyString /\ Forall (fun c => version_char c = true) (chars v).
Proof.
  unfold match_here. destruct (strip_prefix href_open s) as [rest|]; [|discriminate].
  destruct (span version_char rest) as [run tail] eqn:Hspan.
  destruct run as [|c run]; [discriminate|].
  destruct (strip_prefix href_close tail); [|discriminate].
  intros [= <- _]. split; [discriminate|].
  now destruct (span_class _ _ _ _ Hspan).
Qed.

Lemma findall_from_group (s : string) (skip : nat) (v : string) :
  In v (findall_from skip s) ->
  v <> EmptyString /\ Forall (fun c => version_char c = true) (chars v).
Proof.
  revert skip. induction s as [|c s IH]; intros skip; simpl; [tauto|].
  destruct skip as [|k]; [|apply IH].
  destruct (match_here (String c s)) as [[w len]|] eqn:Hm; [|apply IH].
  intros [<- | Hin]; [now apply (match_here_group _ _ _ Hm) | now apply (IH _ Hin)].
Qed.

Lemma version_char_not_a (c : ascii) : version_char c = true -> c <> "a"%char.
Proof. intros H ->. discriminate H. Qed.

Lemma group_has_no_a (v : string) :
  Forall (fun c => version_char c = true) (chars v) -> has_no_a v = true.
Proof.
  intros Hall. unfold has_no_a.
  destruct (char_in "a"%char (chars v)) eqn:E; [|reflexivity].
  apply UtilFacts.char_in_spec in E. rewrite List.Forall_forall in Hall.
  now destruct (version_char_not_a _ (Hall _ E)).
Qed.

(** X7. What the pattern of line 286 extracts is never empty and made of
    digits and dots only, so the test for the letter a on the same line
    removes nothing: the versions are all the matches. *)
Theorem findall_versions (html : string) :
  (forall v, In v (findall html) ->
     v <> EmptyString /\ Forall (fun c => version_char c = true) (chars v)) /\
  List.filter has_no_a (findall html) = findall html.
Proof.
  split.
  - intros v. apply findall_from_group.
  - apply VersionsFacts.filter_all. apply List.Forall_forall. intros v Hv.
    apply group_has_no_a. now apply (findall_from_group html 0 v).
Qed.

Lemma strip_prefix_app (lit s : string) : strip_prefix lit (lit +:+ s) = Some s.
Proof. induction lit as [|a lit IH]; simpl; [reflexivity|]. now rewrite Ascii.eqb_refl. Qed.

Lemma span_app (cls : ascii -> bool) (v : string) (c : ascii) (s : string) :
  Forall (fun x => cls x = true) (chars v) -> cls c = false ->
  span cls (v +:+ String c s) = (v, String c s).
Proof.
  intros Hall Hc. induction v as [|x v IH]; simpl.
  - now rewrite Hc.
  - inversion Hall as [|? ? Hx Hrest]; subst. rewrite Hx, (IH Hrest). reflexivity.
Qed.

Lemma match_here_anchor (v s : string) :
  v <> EmptyString -> Forall (fun c => version_char c = true) (chars v) ->
  match_here (href_open +:+ v +:+ href_close +:+ s)
  = Some (v, String.length href_open + String.length v + String.length href_close)%nat.
Proof.
  intros Hne Hall. unfold match_here. rewrite strip_prefix_app.
  change (href_close +:+ s) with (String "/"%char (String dquote s)).
  rewrite (span_app version_char v "/"%char _ Hall eq_refl).
  destruct v; [congruence|].
  change (String "/"%char (String dquote s)) with (href_close +:+ s).
  now rewrite strip_prefix_app.
Qed.

Lemma string_app_cons (x : ascii) (a b : string) :
  String x a +:+ b = String x (a +:+ b).
Proof. reflexivity. Qed.

Lemma string_app_assoc (a b c : string) : (a +:+ b) +:+ c = a +:+ b +:+ c.
Proof.
  induction a as [|x a IH]; [reflexivity|].
  now rewrite !string_app_cons, IH.
Qed.

Lemma findall_from_skip (a s : string) :
  findall_from (String.length a) (a +:+ s) = findall_from 0 s.
Proof.
  induction a as [|c a IH]; simpl; [|exact IH]. now destruct s.
Qed.

Lemma match_here_other (c : ascii) (s : string) :
  c <> "h"%char -> match_here (String c s) = None.
Proof.
  intros Hc. unfold match_here.
  change (strip_prefix href_open (String c s))
    with (if Ascii.eqb "h"%char c
          then strip_prefix ("ref=" +:+ String dquote "") s else None).
  destruct (Ascii.eqb_spec "h"%char c) as [<- | _]; [congruence | reflexivity].
Qed.

Lemma findall_filler (filler s : string) :
  ~ In "h"%char (chars filler) ->
  findall_from 0 (filler +:+ s) = findall_from 0 s.
Proof.
  induction filler as [|c filler IH]; simpl; [reflexivity|]. intros Hno.
  rewrite match_here_other by tauto. apply IH. tauto.
Qed.

Lemma findall_anchor (v s : string) :
  v <> EmptyString -> Forall (fun c => version_char c = true) (chars v) ->
  findall_from 0 (href_open +:+ v +:+ href_close +:+ s) = v :: findall_from 0 s.
Proof.
  intros Hne Hall.
  pose proof (match_here_anchor v s Hne Hall) as Hm.
  change (href_open +:+ v +:+ href_close +:+ s)
    with (String "h"%char ("ref=" +:+ String dquote (v +:+ href_close +:+ s))) in *.
  cbn [findall_from]. rewrite Hm. f_equal.
  replace (String.length href_open + String.length v + String.length href_close - 1)%nat
    with (String.length ("ref=" +:+ String dquote (v +:+ href_close))).
  - replace ("ref=" +:+ String dquote (v +:+ href_close +:+ s))
      with (("ref=" +:+ String dquote (v +:+ href_close)) +:+ s).
    + apply findall_from_skip.
    + rewrite string_app_assoc. f_equal.
      now rewrite string_app_cons, string_app_assoc.
  - simpl. rewrite UtilMore.string_length_app. simpl. lia.
Qed.

(** X8. Reading back a listing: from the text that has one anchor per
    version, between pieces of text without the letter h, the pattern
    extracts exactly the versions, in order, so the selection made from
    the page is the selection made from the list. *)
Theorem findall_render (before after : string) (vs : list string) :
  ~ In "h"%char (chars before) -> ~ In "h"%char (chars after) ->
  Forall (fun v => v <> EmptyString /\
                   Forall (fun c => version_char c = true) (chars v)) vs ->
  findall (render before after vs) = vs /\
  latest_of_listing (render before after vs) = latest vs.
Proof.
  intros Hb Ha Hvs.
  assert (H : findall (render before after vs) = vs).
  { unfold findall. induction Hvs as [|v vs [Hne Hall] _ IH]; [reflexivity|].
    cbn [render]. rewrite (findall_filler before _ Hb).
    rewrite (findall_anchor v _ Hne Hall).
    now rewrite (findall_filler after _ Ha), IH. }
  split; [exact H|]. unfold latest_of_listing. now rewrite H.
Qed.

Lemma findall_render_witness :
  findall (render "<a " (">x</a>" +:+ String newline "") ["13.5.1"; "14.0"]) = ["13.5.1"; "14.0"] /\
  latest_of_listing (render "<a " (">x</a>" +:+ String newline "") ["13.5.1"; "14.0"])
  = latest ["13.5.1"; "14.0"].
Proof.
  apply (findall_render "<a " (">x</a>" +:+ String newline "") ["13.5.1"; "14.0"]).
  - simpl. intros [H | [H | [H | []]]]; discriminate H.
  - simpl. intros H. repeat (destruct H as [H | H]; [discriminate H|]). destruct H.
  - repeat constructor; discriminate.
Defined.

End ListingFacts.

(* ===================================================================== *)
(** ** More about [download_with_watchdog] *)
(* ===================================================================== *)

Module WatchdogMore.
Import Py Watchdog WatchdogFacts.
Import PrimFloat.

Lemma is_empty_nil (c : bytes) : is_empty c = true -> c = [].
Proof. now destruct c. Qed.

Lemma in_time_tail_empty (timeout : Z) (t0 : float) (x : recv) (rest : list recv) :
  is_empty (chunk x) = true ->
  in_time timeout t0 (x :: rest) -> in_time timeout t0 rest.
Proof.
  intros Hx H pre it post -> Hit.
  specialize (H (x :: pre) it post eq_refl Hit).
  now rewrite last_progress_empty in H.
Qed.

Lemma in_time_tail_data (timeout : Z) (t0 : float) (x : recv) (rest : list recv) :
  is_empty (chunk x) = false ->
  in_time timeout t0 (x :: rest) -> in_time timeout (now x) rest.
Proof.
  intros Hx H pre it post -> Hit.
  specialize (H (x :: pre) it post eq_refl Hit).
  now rewrite last_progress_data in H.
Qed.

Lemma iter_content_in_time (label : string) (timeout : Z) (fin : stream_end)
    (items : list recv) (st : loop_state) :
  in_time timeout (last_data_time st) items ->
  exists st', iter_content label timeout st items fin = (outcome fin, st') /\
              f st' = (f st ++ concat (data_chunks items))%list.
Proof.
  revert st. induction items as [|x items IH]; intros st Hin; simpl.
  - exists st. rewrite app_nil_r. now destruct fin.
  - unfold data_chunks. simpl. destruct (is_empty (chunk x)) eqn:Ex; simpl.
    + pose proof (Hin [] x items eq_refl (is_empty_nil _ Ex)) as Hx.
      change (last_progress (last_data_time st) []) with (last_data_time st) in Hx.
      rewrite Hx. apply IH. now apply (in_time_tail_empty timeout _ x).
    + destruct (IH {| f := (f st ++ chunk x)%list;
                      downloaded := (downloaded st + Z.of_nat (length (chunk x)))%Z;
                      last_data_time := now x |}) as (st' & Hrun & Hf).
      { now apply (in_time_tail_data timeout (last_data_time st) x). }
      exists st'. split; [exact Hrun|]. rewrite Hf. simpl.
      now rewrite <- app_assoc.
Qed.

(** X9. When the request goes through and the test of line 103 succeeds for
    no empty read, the watchdog never fires: the call ends the way the
    stream ends, and the destination holds every non-empty chunk, in
    order. *)
Theorem download_with_watchdog_in_time
    (url dest_path label : string) (timeout chunk_size : Z) (t0 : float)
    (r : response) (fs : gmap string bytes) :
  status_error r = None -> length_error r = None ->
  in_time timeout t0 (body r) ->
  download_with_watchdog url dest_path label timeout chunk_size t0
    (GetResponse r) fs
  = (outcome (ending r), <[dest_path := concat (data_chunks (body r))]> fs).
Proof.
  intros Hstatus Hlength Hin. unfold download_with_watchdog.
  rewrite Hstatus, Hlength.
  destruct (iter_content_in_time label timeout (ending r) (body r)
              {| f := []; downloaded := 0; last_data_time := t0 |} Hin)
    as (st' & -> & Hf).
  simpl in Hf. now rewrite Hf.
Qed.

Lemma breaks_after_two_in_time :
  in_time 30 0%float (body MoreSamples.breaks_after_two).
Proof.
  intros pre it post Hbody Hit.
  cbv [MoreSamples.breaks_after_two body] in Hbody.
  destruct pre as [|a [|b [|c pre]]]; simpl in Hbody;
    inversion Hbody; subst; simpl in *; try discriminate Hit.
  - reflexivity.
  - now destruct pre.
Qed.

Lemma download_with_watchdog_in_time_witness :
  download_with_watchdog "http://host/file" "/tmp/out" "file" 30 65536 0%float
    (GetResponse MoreSamples.breaks_after_two) ∅
  = (outcome (ending MoreSamples.breaks_after_two),
     <["/tmp/out" := concat (data_chunks (body MoreSamples.breaks_after_two))]> ∅).
Proof.
  apply (download_with_watchdog_in_time "http://host/file" "/tmp/out" "file"
           30 65536 0%float MoreSamples.breaks_after_two ∅).
  - reflexivity.
  - reflexivity.
  - exact breaks_after_two_in_time.
Defined.




End WatchdogMore.

(* ===================================================================== *)
(** ** More about the supervisor *)
(* ===================================================================== *)

Module SupervisorMore.
Import Py Supervisor SupervisorFacts.

(** X11. [wait_for_tor] answers [True] exactly when some evaluation of the
    loop condition finds the port open before the deadline, every
    earlier one having come before the deadline too and found it
    closed. What the port does after the deadline is never looked at. *)
Theorem wait_for_tor_true_iff (timeout : Z) (start : PrimFloat.float)
    (polls : list (PrimFloat.float * bool)) :
  wait_for_tor timeout start polls = true <->
  exists pre t post,
    polls = (pre ++ (t, true) :: post)%list /\
    float_lt_int (float_sub t start) timeout = true /\
    Forall (fun q => float_lt_int (float_sub (fst q) start) timeout = true /\
                     snd q = false) pre.
Proof.
  unfold wait_for_tor. induction polls as [|[t live] polls IH]; simpl.
  - split; [discriminate|]. intros (pre & t & post & Hsplit & _).
    now destruct pre.
  - destruct (float_lt_int (float_sub t start) timeout) eqn:Hin.
    + destruct live.
      * split; [|reflexivity]. intros _. exists [], t, polls.
        repeat split; [exact Hin | constructor].
      * rewrite IH. split.
        -- intros (pre & u & post & -> & Hu & Hpre).
           exists ((t, false) :: pre), u, post. repeat split; [exact Hu|].
           constructor; [split; [exact Hin | reflexivity] | exact Hpre].
        -- intros (pre & u & post & Hsplit & Hu & Hpre).
           destruct pre as [|q pre]; [discriminate Hsplit|].
           injection Hsplit as <- ->. inversion Hpre; subst.
           exists pre, u, post. repeat split; assumption.
    + split; [discriminate|]. intros (pre & u & post & Hsplit & Hu & Hpre).
      destruct pre as [|q pre].
      * injection Hsplit as -> _. congruence.
      * injection Hsplit as <- _. inversion Hpre as [|? ? [Hq _] _]; subst.
        simpl in Hq. congruence.
Qed.

(** [start_tor_process], statement by statement. *)
Lemma start_tor_process_eq (c : string) (e : start_env) (w : world) :
  start_tor_process c e w =
  let w1 := terminated (unresponsive e) (emit (CallStart c) w) in
  match ensure_tor_files e with
  | Raise x => (Raise x, w1)
  | Ok tor_path =>
      if tor_exists e then
        let w2 := set_torrc_path (Some (tmp_name e))
                    (set_files (<[tmp_name e := torrc_content c]> (files w1)) w1) in
        match popen e with
        | Raise x => (Raise x, w2)
        | Ok p =>
            (Ok tt,
             set_tor_started_by_us true
               (set_tor_process (Some p)
                  (emit (Spawn p [tor_path; "-f"; tmp_name e])
                     (set_running ({[p]} ∪ running w2) w2))))
        end
      else (Raise (RuntimeError ("Tor executable not found at " +:+ tor_path)), w1)
  end.
Proof.
  unfold start_tor_process, terminate_tor_process, mbind, M_bind, bind,
    modify, answer, raise, ret. cbv zeta.
  fold (terminated (unresponsive e) (emit (CallStart c) w)).
  destruct (ensure_tor_files e) as [tor_path|x]; [|reflexivity].
  destruct (tor_exists e); [|reflexivity].
  destruct (popen e) as [p|x]; reflexivity.
Qed.

(** X13. A start that raises leaves no session: no process handle, the flag
    off, and, from a world with at most one session, no proxy process
    running. If it got as far as the launch, the configuration file it
    wrote stays on disk under [torrc_path], and the next terminate
    removes it. *)
Theorem failed_start_leaves_no_session
    (c : string) (e : start_env) (w w' : world) (x : exn) :
  one_session w ->
  start_tor_process c e w = (Raise x, w') ->
  tor_process w' = None /\ tor_started_by_us w' = false /\ running w' = ∅ /\
  (is_ok (ensure_tor_files e) = true -> tor_exists e = true ->
   popen e = Raise x /\
   torrc_path w' = Some (tmp_name e) /\
   files w' !! tmp_name e = Some (torrc_content c) /\
   forall u, let w2 := snd (terminate_tor_process u w') in
             torrc_path w2 = None /\ files w2 !! tmp_name e = None).
Proof.
  intros Hinv Hstart.
  assert (Hempty : running (terminated (unresponsive e) (emit (CallStart c) w)) = ∅).
  { rewrite terminated_running.
    apply (stop_running_one_session _ (emit CallTerminate (emit (CallStart c) w))).
    exact Hinv. }
  pose proof (terminated_tor_process (unresponsive e) (emit (CallStart c) w)) as Htp.
  pose proof (terminated_started (unresponsive e) (emit (CallStart c) w)) as Hst.
  rewrite start_tor_process_eq in Hstart. cbv zeta in Hstart.
  remember (terminated (unresponsive e) (emit (CallStart c) w)) as w1 eqn:Ew1.
  clear Ew1.
  destruct (ensure_tor_files e) as [tor_path|y].
  - destruct (tor_exists e).
    + destruct (popen e) as [p|y]; [discriminate|].
      injection Hstart as <- <-.
      split; [exact Htp|]. split; [exact Hst|]. split; [exact Hempty|].
      intros _ _. split; [reflexivity|]. split; [reflexivity|].
      split; [apply lookup_insert_eq|].
      intros u. cbv zeta. rewrite terminate_tor_process_eq. cbn [snd].
      apply (terminated_removes u _ (tmp_name e)); [reflexivity|].
      unfold os_path_exists. cbn [files set_torrc_path set_files].
      rewrite truthy_tmp_name, lookup_insert_eq. reflexivity.
    + injection Hstart as <- <-.
      split; [exact Htp|]. split; [exact Hst|]. split; [exact Hempty|].
      discriminate.
  - injection Hstart as <- <-.
    split; [exact Htp|]. split; [exact Hst|]. split; [exact Hempty|].
    discriminate.
Qed.

Lemma failed_start_leaves_no_session_witness :
  let w' := snd (start_tor_process "se" MoreSamples.start_no_exec (initial ∅ ∅)) in
  tor_process w' = None /\ tor_started_by_us w' = false /\ running w' = ∅ /\
  (is_ok (ensure_tor_files MoreSamples.start_no_exec) = true ->
   tor_exists MoreSamples.start_no_exec = true ->
   popen MoreSamples.start_no_exec = Raise (OSError "[Errno 8] Exec format error") /\
   torrc_path w' = Some (tmp_name MoreSamples.start_no_exec) /\
   files w' !! tmp_name MoreSamples.start_no_exec = Some (torrc_content "se") /\
   forall u, let w2 := snd (terminate_tor_process u w') in
             torrc_path w2 = None /\
             files w2 !! tmp_name MoreSamples.start_no_exec = None).
Proof.
  apply (failed_start_leaves_no_session "se" MoreSamples.start_no_exec
           (initial ∅ ∅)
           (snd (start_tor_process "se" MoreSamples.start_no_exec (initial ∅ ∅)))
           (OSError "[Errno 8] Exec format error")).
  - intros p Hp. simpl in Hp. now apply not_elem_of_empty in Hp.
  - reflexivity.
Defined.




End SupervisorMore.

(* ===================================================================== *)
(** ** How the rotation ends *)
(* ===================================================================== *)

Module RotationMore.
Import Py Supervisor Rotation Program SupervisorFacts RotationFacts.

Lemma calls_app (l1 l2 : list event) :
  calls (l1 ++ l2) = (calls l1 ++ calls l2)%list.
Proof. apply List.filter_app. Qed.

Lemma calls_emit (e : event) (w : world) :
  is_call e = false -> calls (log (emit e w)) = calls (log w).
Proof.
  intros He. rewrite log_emit, calls_app. unfold calls at 2. simpl.
  rewrite He. apply app_nil_r.
Qed.

Lemma calls_process_may_exit (early : bool) (w : world) :
  calls (log (snd (process_may_exit early w))) = calls (log w).
Proof. now rewrite process_may_exit_log. Qed.

Lemma calls_test_tor_connection (o : probe_outcome) (w : world) :
  calls (log (snd (test_tor_connection o w))) = calls (log w).
Proof.
  destruct o; unfold test_tor_connection, mbind, M_bind, bind, print, modify,
    raise, ret; cbn [snd]; rewrite ?calls_emit by reflexivity; reflexivity.
Qed.

(** The first two entries of every start. *)
Lemma calls_terminated_start (u : bool) (c : string) (w : world) :
  calls (log (terminated u (emit (CallStart c) w)))
  = (calls (log w) ++ cycle c)%list.
Proof.
  destruct (terminated_log u (emit (CallStart c) w)) as (mid & -> & Hmid).
  rewrite log_emit, <- app_assoc, calls_app. f_equal.
  unfold calls, cycle. simpl.
  now rewrite (filter_cleanup is_call mid cleanup_not_call Hmid).
Qed.

Lemma calls_start_tor_process (c : string) (e : start_env) (w : world) :
  calls (log (snd (start_tor_process c e w))) = (calls (log w) ++ cycle c)%list.
Proof.
  rewrite SupervisorMore.start_tor_process_eq. cbv zeta.
  pose proof (calls_terminated_start (unresponsive e) c w) as H.
  destruct (ensure_tor_files e) as [tor_path|x]; [|exact H].
  destruct (tor_exists e); [|exact H].
  destruct (popen e) as [p|x]; cbn [snd]; [|exact H].
  cbn [log set_tor_started_by_us set_tor_process].
  rewrite calls_emit by reflexivity. exact H.
Qed.

(** Every pass, however it ends, makes one start with its terminate. *)
Lemma attempt_country_calls (url country : string) (a : attempt) (w : world) :
  calls (log (snd (attempt_country url country a w)))
  = (calls (log w) ++ cycle country)%list.
Proof.
  rewrite attempt_country_eq.
  pose proof (calls_start_tor_process country (start_answers a)
                (emit (trying country) w)) as H.
  rewrite calls_emit in H by reflexivity.
  destruct (start_tor_process _ _ _) as [[[]|e] w1]; cbn [snd] in *; [|exact H].
  cbv zeta.
  destruct (wait_for_tor _ _ _).
  - pose proof (calls_test_tor_connection (probe a)
                  (snd (process_may_exit (exits_early a) w1))) as Hprobe.
    rewrite calls_process_may_exit in Hprobe.
    destruct (test_tor_connection _ _) as [[[]|e] w3]; cbn [snd] in *;
      [|now rewrite Hprobe].
    destruct (fetch a); cbn [snd]; rewrite !calls_emit by reflexivity;
      now rewrite Hprobe.
  - cbn [snd]. rewrite calls_emit by reflexivity.
    now rewrite calls_process_may_exit.
Qed.

(** The loop after the passes that fail: it goes on with the first pass
    that does not, in the world those passes left. *)
Lemma for_countries_after_fails (url : string) (oracle : nat -> attempt)
    (done : list string) (c : string) (rest : list string) (i : nat) (w : world) :
  (forall j, (j < length done)%nat -> fails (oracle (i + j)%nat)) ->
  exists wk,
    calls (log wk) = (calls (log w) ++ flat_map cycle done)%list /\
    for_countries url oracle i (done ++ c :: rest) w
    = match attempt_country url c (oracle (i + length done)%nat) wk with
      | (Ok true, w') => (Ok true, w')
      | (Ok false, w') =>
          for_countries url oracle (S (i + length done)) rest w'
      | (Raise e, w') => (Raise e, w')
      end.
Proof.
  revert i w. induction done as [|d done IH]; intros i w Hfail.
  - exists w. simpl. rewrite app_nil_r, Nat.add_0_r. split; [reflexivity|].
    unfold mbind, M_bind, bind.
    destruct (attempt_country _ _ _ _) as [[[|]|e] w']; reflexivity.
  - assert (Hd : fails (oracle i)).
    { rewrite <- (Nat.add_0_r i). apply Hfail. simpl. lia. }
    destruct (attempt_country_fails url d (oracle i) w Hd)
      as (w1 & new & Hpass & _ & _).
    pose proof (attempt_country_calls url d (oracle i) w) as Hcalls.
    rewrite Hpass in Hcalls. cbn [snd] in Hcalls.
    destruct (IH (S i) w1) as (wk & Hwk & Hloop).
    { intros j Hj. replace (S i + j)%nat with (i + S j)%nat by lia.
      apply Hfail. simpl. lia. }
    exists wk. split.
    + rewrite Hwk, Hcalls, <- app_assoc. reflexivity.
    + simpl. unfold mbind, M_bind, bind. rewrite Hpass.
      rewrite Hloop. replace (S i + length done)%nat with (i + S (length done))%nat by lia.
      reflexivity.
Qed.

Lemma take_middle (done : list string) (c : string) (rest : list string) :
  take (S (length done)) (done ++ c :: rest) = (done ++ [c])%list.
Proof.
  induction done as [|d done IH]; simpl; [now rewrite take_0|].
  now rewrite IH.
Qed.

Lemma split_at (countries : list string) (k : nat) :
  (k < length countries)%nat ->
  exists done c rest, countries = (done ++ c :: rest)%list /\ length done = k.
Proof.
  revert k. induction countries as [|x countries IH]; intros k Hk; simpl in Hk.
  - lia.
  - destruct k as [|k].
    + exists [], x, countries. split; reflexivity.
    + destruct (IH k) as (done & c & rest & -> & Hlen); [lia|].
      exists (x :: done), c, rest. split; [reflexivity | simpl; now rewrite Hlen].
Qed.

(** X14. An exception of [start_tor_process] is caught by nobody. When the
    passes before pass [k] fail the way the loop expects and the start
    of pass [k] raises (the bundle cannot be fetched, the binary is
    missing, the launch fails), [download_video] raises that exception
    after [k + 1] starts: no later country is tried, and no session is
    left in the globals. An exception of [ensure_ffmpeg] leaves the
    function before anything is done. *)
Theorem start_failure_aborts_download_video (countries : list string)
    (url ffmpeg : string) (oracle : nat -> attempt) (w : world) (k : nat)
    (x : exn) :
  (k < length countries)%nat ->
  (forall i, (i < k)%nat -> fails (oracle i)) ->
  start_error (start_answers (oracle k)) = Some x ->
  let r := download_video_over countries url (Ok ffmpeg) oracle w in
  fst r = Raise x /\
  calls (log (snd r))
  = (calls (log w) ++ flat_map cycle (take (S k) countries))%list /\
  tor_process (snd r) = None /\ tor_started_by_us (snd r) = false /\
  forall e, download_video_over countries url (Raise e) oracle w = (Raise e, w).
Proof.
  intros Hk Hfail Hstart.
  destruct (split_at countries k Hk) as (done & c & rest & -> & Hlen).
  destruct (for_countries_after_fails url oracle done c rest 0 w)
    as (wk & Hwk & Hloop).
  { intros j Hj. apply Hfail. lia. }
  simpl in Hloop. rewrite Hlen in Hloop.
  replace (take (S k) (done ++ c :: rest)) with (done ++ [c])%list
    by (rewrite <- Hlen; symmetry; apply take_middle).
  cbv zeta. unfold download_video_over, mbind, M_bind, bind, answer.
  rewrite Hloop. clear Hloop.
  pose proof (attempt_country_calls url c (oracle k) wk) as Hcalls.
  rewrite attempt_country_eq in Hcalls |- *.
  assert (Hraise : exists w1,
            start_tor_process c (start_answers (oracle k)) (emit (trying c) wk)
            = (Raise x, w1) /\
            tor_process w1 = None /\ tor_started_by_us w1 = false).
  { rewrite SupervisorMore.start_tor_process_eq. cbv zeta.
    unfold start_error in Hstart.
    pose proof (terminated_tor_process (unresponsive (start_answers (oracle k)))
                  (emit (CallStart c) (emit (trying c) wk))) as Htp.
    pose proof (terminated_started (unresponsive (start_answers (oracle k)))
                  (emit (CallStart c) (emit (trying c) wk))) as Hst.
    destruct (ensure_tor_files _) as [tor_path|y].
    - destruct (tor_exists _); simpl in Hstart.
      + destruct (popen _) as [p|y]; [discriminate|].
        injection Hstart as ->. eexists. split; [reflexivity|].
        split; [exact Htp | exact Hst].
      + injection Hstart as <-. eexists. split; [reflexivity|].
        split; [exact Htp | exact Hst].
    - injection Hstart as ->. eexists. split; [reflexivity|].
      split; [exact Htp | exact Hst]. }
  destruct Hraise as (w1 & Hw1 & Htp & Hst).
  rewrite Hw1 in Hcalls |- *. cbn [fst snd] in *.
  split; [reflexivity|].
  split; [rewrite Hcalls, Hwk, flat_map_app, <- app_assoc; reflexivity|].
  split; [exact Htp|]. split; [exact Hst|]. reflexivity.
Qed.

Lemma tor_missing_in_second_fails (i : nat) :
  (i < 1)%nat -> fails (MoreSamples.tor_missing_in_second i).
Proof.
  intros Hi. destruct i as [|i]; [|lia].
  split; [repeat split|]. right. split; [reflexivity|].
  split; [right; eauto | simpl; eauto].
Qed.

Lemma start_failure_aborts_download_video_witness :
  let r := download_video_over SAFE_COUNTRIES Samples.some_url
             (Ok Samples.ffmpeg_exe) MoreSamples.tor_missing_in_second
             (initial ∅ ∅) in
  fst r = Raise (RuntimeError "Could not locate Tor Expert Bundle") /\
  calls (log (snd r))
  = (calls (log (initial ∅ ∅)) ++ flat_map cycle (take 2 SAFE_COUNTRIES))%list /\
  tor_process (snd r) = None /\ tor_started_by_us (snd r) = false /\
  forall e, download_video_over SAFE_COUNTRIES Samples.some_url (Raise e)
              MoreSamples.tor_missing_in_second (initial ∅ ∅)
            = (Raise e, initial ∅ ∅).
Proof.
  apply (start_failure_aborts_download_video SAFE_COUNTRIES Samples.some_url
           Samples.ffmpeg_exe MoreSamples.tor_missing_in_second (initial ∅ ∅) 1
           (RuntimeError "Could not locate Tor Expert Bundle")).
  - simpl. lia.
  - exact tor_missing_in_second_fails.
  - reflexivity.
Defined.

(** X15. The first pass whose fetch goes through ends the rotation: when the
    passes before pass [k] fail and pass [k] succeeds, [download_video]
    returns after [k + 1] starts, its last output is the success line,
    and the proxy of pass [k] is still the session the globals hold,
    for the exit hook to stop. *)
Theorem first_success_ends_rotation (countries : list string)
    (url ffmpeg : string) (oracle : nat -> attempt) (w : world) (k : nat) :
  (k < length countries)%nat ->
  (forall i, (i < k)%nat -> fails (oracle i)) ->
  succeeds (oracle k) ->
  let r := download_video_over countries url (Ok ffmpeg) oracle w in
  fst r = Ok tt /\
  calls (log (snd r))
  = (calls (log w) ++ flat_map cycle (take (S k) countries))%list /\
  last (log (snd r)) = Some succeeded /\
  tor_process (snd r) = launched (start_answers (oracle k)) /\
  tor_started_by_us (snd r) = true /\
  torrc_path (snd r) = Some (tmp_name (start_answers (oracle k))).
Proof.
  intros Hk Hfail Hok.
  destruct (split_at countries k Hk) as (done & c & rest & -> & Hlen).
  destruct (for_countries_after_fails url oracle done c rest 0 w)
    as (wk & Hwk & Hloop).
  { intros j Hj. apply Hfail. lia. }
  simpl in Hloop. rewrite Hlen in Hloop.
  replace (take (S k) (done ++ c :: rest)) with (done ++ [c])%list
    by (rewrite <- Hlen; symmetry; apply take_middle).
  cbv zeta. unfold download_video_over, mbind, M_bind, bind, answer, ret.
  rewrite Hloop. clear Hloop.
  pose proof (attempt_country_calls url c (oracle k) wk) as Hcalls.
  rewrite attempt_country_eq in Hcalls |- *.
  destruct Hok as ((Hfiles & Hexists & Hpopen) & Hready & Hprobe & Hfetch).
  destruct (start_tor_process_starts c (start_answers (oracle k))
              (emit (trying c) wk) Hfiles Hexists Hpopen)
    as (w1 & tp0 & p0 & mid & Hstart & _ & _).
  destruct (start_tor_process_ok c _ _ w1 Hstart)
    as (tor_path & p & _ & _ & Epop & H1).
  cbv zeta in H1. destruct H1 as (Htp1 & Hrc1 & Hst1 & _).
  rewrite Hstart in Hcalls |- *. unfold ready in Hready.
  rewrite Hready in Hcalls |- *. cbv zeta in Hcalls |- *.
  assert (Hexit :
    let w2 := snd (process_may_exit (exits_early (oracle k)) w1) in
    tor_process w2 = Some p /\ tor_started_by_us w2 = true /\
    torrc_path w2 = Some (tmp_name (start_answers (oracle k)))).
  { unfold process_may_exit, modify. simpl. rewrite Htp1.
    destruct (exits_early (oracle k)); simpl; repeat split; assumption. }
  cbv zeta in Hexit.
  remember (snd (process_may_exit (exits_early (oracle k)) w1)) as w2 eqn:Ew2.
  clear Ew2. destruct Hexit as (Htp2 & Hst2 & Hrc2).
  assert (Hprobed : exists w3,
            test_tor_connection (probe (oracle k)) w2 = (Ok tt, w3) /\
            tor_process w3 = Some p /\ tor_started_by_us w3 = true /\
            torrc_path w3 = Some (tmp_name (start_answers (oracle k)))).
  { destruct Hprobe as [-> | (ip & t & ->)]; eexists; (split; [reflexivity|]);
      repeat split; assumption. }
  destruct Hprobed as (w3 & Hw3 & Htp3 & Hst3 & Hrc3).
  rewrite Hw3, Hfetch in Hcalls |- *. cbn [fst snd] in *.
  split; [reflexivity|].
  split; [rewrite Hcalls, Hwk, flat_map_app, <- app_assoc; reflexivity|].
  split; [rewrite log_emit; apply last_snoc|].
  unfold launched. rewrite Epop. repeat split; assumption.
Qed.

Lemma first_success_ends_rotation_witness :
  let r := download_video_over SAFE_COUNTRIES Samples.some_url
             (Ok Samples.ffmpeg_exe) Samples.third_succeeds (initial ∅ ∅) in
  fst r = Ok tt /\
  calls (log (snd r))
  = (calls (log (initial ∅ ∅)) ++ flat_map cycle (take 3 SAFE_COUNTRIES))%list /\
  last (log (snd r)) = Some succeeded /\
  tor_process (snd r) = launched (start_answers (Samples.third_succeeds 2)) /\
  tor_started_by_us (snd r) = true /\
  torrc_path (snd r) = Some (tmp_name (start_answers (Samples.third_succeeds 2))).
Proof.
  apply (first_success_ends_rotation SAFE_COUNTRIES Samples.some_url
           Samples.ffmpeg_exe Samples.third_succeeds (initial ∅ ∅) 2).
  - simpl. lia.
  - exact third_succeeds_fails.
  - exact third_succeeds_succeeds.
Defined.

End RotationMore.

(* ===================================================================== *)
(** ** Facts about the script as a whole *)
(* ===================================================================== *)

Module ProgramFacts.
Import Py Supervisor Rotation Program SupervisorFacts RotationFacts.

(** *** Properties kept by every statement *)

Section Keeps.
Variable P : world -> Prop.







End Keeps.

(** *** What the script owns *)

Section Owns.
Variable procs : gset pid.
Variable fs : gmap string string.


(** After [terminate_tor_process] nothing of the script is left: what
    runs was there before the script, and so was every file. *)
Lemma terminated_leaves_nothing (u : bool) (w : world) :
  owns procs fs w ->
  (forall p, p ∈ running (terminated u w) -> p ∈ procs) /\
  (forall path c, files (terminated u w) !! path = Some c -> fs !! path = Some c).
Proof.
  intros [Hrun Hfiles]. split.
  - intros q. rewrite terminated_running. unfold stop_running.
    change (tor_process (emit CallTerminate w)) with (tor_process w).
    change (tor_started_by_us (emit CallTerminate w)) with (tor_started_by_us w).
    unfold poll_is_none.
    change (running (emit CallTerminate w)) with (running w).
    destruct (tor_process w) as [p|] eqn:Hp.
    + destruct (bool_decide (p ∈ running w) && tor_started_by_us w) eqn:Hcond.
      * assert (Hq : q ∈ running w ∖ {[p]} -> q ∈ procs).
        { intros [Hin Hne]%elem_of_difference.
          destruct (Hrun q Hin) as [Hq | [Hq _]]; [exact Hq|].
          exfalso. apply Hne. apply elem_of_singleton. congruence. }
        now destruct u.
      * intros Hin. destruct (Hrun q Hin) as [Hq | [Hq Hst]]; [exact Hq|].
        assert (q = p) as -> by congruence.
        rewrite Hst, bool_decide_eq_true_2 in Hcond by exact Hin.
        discriminate Hcond.
    + intros Hin. destruct (Hrun q Hin) as [Hq | [Hq _]]; [exact Hq | discriminate Hq].
  - intros path c. unfold terminated.
    set (w0 := set_tor_started_by_us false _).
    assert (Hf0 : files w0 = files w).
    { unfold w0. simpl.
      now destruct (stop_running_fields u (emit CallTerminate w)) as (_ & _ & _ & ->). }
    assert (Hrc0 : torrc_path w0 = torrc_path w).
    { unfold w0. simpl.
      now destruct (stop_running_fields u (emit CallTerminate w)) as (_ & -> & _). }
    unfold remove_torrc. rewrite Hrc0.
    destruct (torrc_path w) as [path0|] eqn:Hpath.
    + destruct (truthy path0 && os_path_exists path0 w0) eqn:Hcond.
      * cbn [files set_torrc_path emit set_files]. rewrite Hf0. intros Hlook.
        apply lookup_delete_Some in Hlook as [Hne Hlook].
        destruct (Hfiles path c Hlook) as [[Hq _] | Hq]; [congruence | exact Hq].
      * rewrite Hf0. intros Hlook.
        destruct (Hfiles path c Hlook) as [[Hq Ht] | Hq]; [|exact Hq].
        assert (path0 = path) as -> by congruence.
        unfold os_path_exists in Hcond. rewrite Hf0, Ht, Hlook in Hcond.
        cbv in Hcond. discriminate Hcond.
    + rewrite Hf0. intros Hlook.
      destruct (Hfiles path c Hlook) as [[Hq _] | Hq]; [discriminate Hq | exact Hq].
Qed.

Lemma terminate_tor_process_owns (u : bool) :
  keeps (owns procs fs) (terminate_tor_process u).
Proof.
  intros w H. rewrite terminate_tor_process_eq. cbn [snd].
  destruct (terminated_leaves_nothing u w H) as [Hrun Hfiles].
  split; [intros p Hp; left; now apply Hrun|].
  intros path c Hc. right. now apply Hfiles.
Qed.









End Owns.


(** On a machine where another proxy runs and an unrelated file lies
    in the temporary directory, a run in which no proxy becomes ready
    ends with that proxy still running and that file still in place,
    and nothing else. *)
Example never_ready_on_busy_machine :
  let r := main Samples.some_url (Ok Samples.ffmpeg_exe) Samples.never_ready
             false MoreSamples.busy_machine in
  fst r = Ok tt /\
  running (snd r) = {[4242%nat]} /\
  files (snd r) = {["/tmp/notes.txt" := "keep"]} /\
  length (signals (log (snd r))) = 8%nat.
Proof. vm_compute. repeat split. Qed.

End ProgramFacts.
